(** * node-rsync: the argument builder, the escaping functions and the
      completion contract of [execute], embedded from [src/index.ts] (the
      TypeScript variant) and [rsync.js] (the JavaScript variant).

    JavaScript strings are sequences of UTF-16 code units; the regular
    expressions of the source carry no [u] flag, so they work on code units
    too.  A string is therefore a [list N] here, and the ASCII literals of
    the source are written with [js]. *)

From Stdlib Require Import List Bool Arith NArith ZArith Lia.
From Stdlib Require Import Sorting.Sorted Sorting.Permutation.
From Stdlib Require Import Strings.String Strings.Ascii Numbers.DecimalString.
Import ListNotations.

(* ------------------------------------------------------------------ *)
(** ** Strings *)

Module JsString.

Definition char16 := N.
Definition jsstring := list char16.

(** An ASCII literal of the source as a code-unit sequence. *)
Definition js (s : string) : jsstring :=
  List.map N_of_ascii (list_ascii_of_string s).

Definition DQUOTE : char16 := 34%N.     (* double quote *)
Definition DOLLAR : char16 := 36%N.     (* dollar *)
Definition SQUOTE : char16 := 39%N.     (* single quote *)
Definition LPAREN : char16 := 40%N.     (* opening parenthesis *)
Definition RPAREN : char16 := 41%N.     (* closing parenthesis *)
Definition SLASH : char16 := 47%N.      (* slash *)
Definition COLON : char16 := 58%N.      (* colon *)
Definition BACKSLASH : char16 := 92%N.  (* backslash *)
Definition BACKTICK : char16 := 96%N.   (* backtick *)
Definition SPACE : char16 := 32%N.

Definition one_of (cs : list char16) (c : char16) : bool :=
  existsb (N.eqb c) cs.

Definition in_range (lo hi c : char16) : bool :=
  (N.leb lo c && N.leb c hi)%bool.

(** The class [\s] of ECMAScript: WhiteSpace and LineTerminator. *)
Definition class_s (c : char16) : bool :=
  (in_range 9 13 c                       (* TAB LF VT FF CR *)
   || one_of [32; 160; 5760] c           (* SP NBSP U+1680 *)
   || in_range 8192 8202 c               (* U+2000 .. U+200A *)
   || one_of [8232; 8233; 8239; 8287; 12288; 65279] c)%N%bool.
                      (* U+2028 U+2029 U+202F U+205F U+3000 U+FEFF *)

(** [[A-Z]] under the [i] flag.  Without the [u] flag a code unit is
    canonicalised by upper-casing, and a code unit of 128 or more never
    canonicalises to an ASCII one, so the class is the ASCII letters. *)
Definition class_AZ_i (c : char16) : bool :=
  (in_range 65 90 c || in_range 97 122 c)%N%bool.

(** [Array.prototype.join] on an array of strings. *)
Fixpoint join (sep : jsstring) (l : list jsstring) : jsstring :=
  match l with
  | [] => []
  | [x] => x
  | x :: rest => x ++ sep ++ join sep rest
  end.

Definition jsstring_eqb (a b : jsstring) : bool :=
  if list_eq_dec N.eq_dec a b then true else false.

End JsString.
Import JsString.

(* ------------------------------------------------------------------ *)
(** ** The fragment of regular expressions the source uses

    Every pattern of the source is a sequence of: the anchor [^], one code
    unit out of a class, or an optional code unit out of a class.  Where a
    pattern has a capture group it encloses the whole pattern, so [$1] in a
    replacement is the whole match. *)

Module Regex.

Inductive atom : Type :=
| Bol                          (* ^ (no m flag: start of input only) *)
| Cls (p : char16 -> bool)     (* one code unit of a class *)
| Opt (p : char16 -> bool).    (* [..]? , greedy *)

Definition regex := list atom.

(** Length of the match of [re] starting here, in backtracking order. *)
Fixpoint match_here (re : regex) (at_start : bool) (s : jsstring)
  : option nat :=
  match re with
  | [] => Some 0
  | Bol :: re' => if at_start then match_here re' at_start s else None
  | Cls p :: re' =>
      match s with
      | c :: s' =>
          if p c then option_map S (match_here re' false s') else None
      | [] => None
      end
  | Opt p :: re' =>
      let taken :=
        match s with
        | c :: s' =>
            if p c then option_map S (match_here re' false s') else None
        | [] => None
        end in
      match taken with
      | Some n => Some n
      | None => match_here re' at_start s
      end
  end.

Fixpoint search (re : regex) (at_start : bool) (s : jsstring) : bool :=
  match match_here re at_start s with
  | Some _ => true
  | None =>
      match s with
      | [] => false
      | _ :: s' => search re false s'
      end
  end.

(** [re.test(s)] *)
Definition test (re : regex) (s : jsstring) : bool := search re true s.

(** The scan of [s.replace(re, template)] for a pattern with the [g]
    flag: leftmost matches, not overlapping; [skip] counts the code units
    the previous match has already consumed.  An empty match inserts the
    replacement and moves on by one code unit. *)
Fixpoint replace_from (re : regex) (template : jsstring -> jsstring)
         (at_start : bool) (skip : nat) (s : jsstring) : jsstring :=
  match s with
  | [] =>
      match skip, match_here re at_start [] with
      | 0, Some _ => template []
      | _, _ => []
      end
  | c :: s' =>
      match skip with
      | S k => replace_from re template false k s'
      | 0 =>
          match match_here re at_start s with
          | Some 0 => template [] ++ c :: replace_from re template false 0 s'
          | Some (S k) =>
              template (firstn (S k) s) ++ replace_from re template false k s'
          | None => c :: replace_from re template false 0 s'
          end
      end
  end.

Definition replace_g (re : regex) (template : jsstring -> jsstring)
           (s : jsstring) : jsstring :=
  replace_from re template true 0 s.

End Regex.
Import Regex.

(* ------------------------------------------------------------------ *)
(** ** The escaping functions and [buildOption] *)

Inductive platform : Type := Win32 | Posix.

Definition is_win32 (p : platform) : bool :=
  match p with Win32 => true | Posix => false end.

(** The values an option can carry: [string | null], and [undefined] for a
    caller that is not type-checked. *)
Inductive scalar : Type :=
| Null
| Undefined
| Str (s : jsstring).

(** [if (value)] *)
Definition truthy (v : scalar) : bool :=
  match v with
  | Str (_ :: _) => true
  | _ => false
  end.

(** [String(value)], used on truthy values only. *)
Definition String_ (v : scalar) : jsstring :=
  match v with
  | Str s => s
  | Null => js "null"
  | Undefined => js "undefined"
  end.

(** The replacement template of both escaping functions: a backslash,
    then group 1. *)
Definition backslash_group1 (m : jsstring) : jsstring := BACKSLASH :: m.

(** The pattern tested by [escapeShellArg]: one of double quote, single
    quote, backtick, backslash, dollar, space. *)
Definition re_shell_test : regex :=
  [Cls (one_of [DQUOTE; SQUOTE; BACKTICK; BACKSLASH; DOLLAR; SPACE])].

(** The pattern replaced by [escapeShellArg], with the [g] flag: the same
    class without the space. *)
Definition re_shell_replace : regex :=
  [Cls (one_of [DQUOTE; SQUOTE; BACKTICK; BACKSLASH; DOLLAR])].

Definition escapeShellArg (arg : jsstring) : jsstring :=
  if negb (test re_shell_test arg) then arg
  else [DQUOTE] ++ replace_g re_shell_replace backslash_group1 arg ++ [DQUOTE].

(** The class replaced by [escapeFileArg]: double quote, single quote,
    backtick, [\s], backslash, the two parentheses, backslash again, dollar. *)
Definition class_file (c : char16) : bool :=
  (one_of [DQUOTE; SQUOTE; BACKTICK] c || class_s c
   || one_of [BACKSLASH; LPAREN; RPAREN; BACKSLASH; DOLLAR] c)%bool.

(** The pattern of the first [replace] of [escapeFileArg] ([g] flag). *)
Definition re_file_replace : regex := [Cls class_file].

(** [/(\\\\)/] and [/\\\\/g]: two backslashes. *)
Definition re_double_backslash : regex :=
  [Cls (N.eqb BACKSLASH); Cls (N.eqb BACKSLASH)].

(** The drive pattern, flags [gi]: start of input, an optional double
    quote, a letter of [A-Z], a colon, a slash. *)
Definition re_drive : regex :=
  [Bol; Opt (N.eqb DQUOTE); Cls class_AZ_i; Cls (N.eqb COLON);
   Cls (N.eqb SLASH)].

Definition escapeFileArg (p : platform) (filename : jsstring) : jsstring :=
  let filename := replace_g re_file_replace backslash_group1 filename in
  if negb (test re_double_backslash filename) then filename
  else
    if is_win32 p then
      replace_g re_drive (fun _ => js "/")
        (replace_g re_double_backslash (fun _ => js "/") filename)
    else filename.

Definition buildOption (name : jsstring) (value : scalar)
           (escapeArg : jsstring -> jsstring) : jsstring :=
  let single := Nat.eqb (List.length name) 1 in
  let prefix := if single then js "-" else js "--" in
  let glue := if single then js " " else js "=" in
  let option := prefix ++ name in
  if truthy value then option ++ glue ++ escapeArg (String_ value)
  else option.


(* ------------------------------------------------------------------ *)
(** ** Plain objects used as mappings

    [_options] is a plain object.  [Object.entries] lists its own
    properties with the keys that are array indices first, in ascending
    numeric order, and the other keys after them in the order in which they
    were created; writing an existing key keeps its place. *)

Module JsObject.

(** [string | string[] | null] *)
Inductive value : Type :=
| One (x : scalar)
| Many (xs : list jsstring).

(** Own properties in creation order, and whether the [__proto__]
    accessor of [Object.prototype] is still inherited. *)
Record obj : Type := {
  own : list (jsstring * value);
  proto_setter : bool
}.

(** The literal [{}]. *)
Definition empty : obj := {| own := []; proto_setter := true |}.

Definition is_digit (c : char16) : bool := in_range 48%N 57%N c.

Definition digits_value (k : jsstring) : N :=
  fold_left (fun acc c => (acc * 10 + (c - 48))%N) k 0%N.

(** A key is an array index when it is the canonical decimal form of an
    integer below 2^32 - 1. *)
Definition array_index (k : jsstring) : option N :=
  match k with
  | [] => None
  | c :: rest =>
      if (forallb is_digit k
          && (negb (N.eqb c 48%N) || Nat.eqb (List.length rest) 0)
          && N.ltb (digits_value k) (2 ^ 32 - 1)%N)%bool
      then Some (digits_value k)
      else None
  end.

Definition is_array_index (k : jsstring) : bool :=
  match array_index k with Some _ => true | None => false end.

Fixpoint insert_by_index (i : N) (e : jsstring * value)
         (l : list (N * (jsstring * value))) : list (N * (jsstring * value)) :=
  match l with
  | [] => [(i, e)]
  | (j, e') :: rest =>
      if N.leb i j then (i, e) :: l else (j, e') :: insert_by_index i e rest
  end.

Fixpoint index_entries (l : list (jsstring * value))
  : list (N * (jsstring * value)) :=
  match l with
  | [] => []
  | e :: rest =>
      match array_index (fst e) with
      | Some i => insert_by_index i e (index_entries rest)
      | None => index_entries rest
      end
  end.

(** [Object.entries(o)] *)
Definition entries (o : obj) : list (jsstring * value) :=
  List.map snd (index_entries (own o))
  ++ filter (fun e => negb (is_array_index (fst e))) (own o).

Fixpoint assign (k : jsstring) (v : value) (l : list (jsstring * value))
  : list (jsstring * value) :=
  match l with
  | [] => [(k, v)]
  | (k', v') :: rest =>
      if jsstring_eqb k k' then (k, v) :: rest
      else (k', v') :: assign k v rest
  end.

(** [o[k] = v].  While the accessor is inherited, writing [__proto__]
    creates no property: [null] removes the prototype (and with it the
    accessor), an array replaces the prototype, a string or [undefined]
    is ignored. *)
Definition obj_set (o : obj) (k : jsstring) (v : value) : obj :=
  if (jsstring_eqb k (js "__proto__") && proto_setter o)%bool then
    match v with
    | One Null => {| own := own o; proto_setter := false |}
    | _ => o
    end
  else {| own := assign k v (own o); proto_setter := proto_setter o |}.

End JsObject.
Import JsObject.

(* ------------------------------------------------------------------ *)
(** ** The state of an [Rsync] instance, [args] and [command]

    The fields [_outputHandlers], [_cwd] and [_env] are read by the spawn
    only and are left out. *)

Record Rsync : Type := {
  _executable : jsstring;
  _executableShell : jsstring;
  _sources : list jsstring;
  _destination : jsstring;
  _includes : list jsstring;
  _excludes : list jsstring;
  _options : obj
}.

(** [value === null || value === undefined] *)
Definition noval (v : value) : bool :=
  match v with
  | One Null | One Undefined => true
  | _ => false
  end.

(** The body of the loop over [Object.entries(this._options)]. *)
Definition args_entry (acc : list jsstring * list jsstring)
           (e : jsstring * value) : list jsstring * list jsstring :=
  let '(short, long) := acc in
  let '(key, value) := e in
  if (Nat.eqb (List.length key) 1 && noval value)%bool then
    (short ++ [key], long)
  else
    match value with
    | Many vals =>
        (short,
         fold_left
           (fun long val => long ++ [buildOption key (Str val) escapeShellArg])
           vals long)
    | One v => (short, long ++ [buildOption key v escapeShellArg])
    end.

Definition args (p : platform) (this : Rsync) : list jsstring :=
  let args := [] in
  let '(short, long) :=
    fold_left args_entry (entries (_options this)) ([], []) in
  let args :=
    if Nat.ltb 0 (List.length short)
    then args ++ [js "-" ++ join [] short] else args in
  let args := if Nat.ltb 0 (List.length long) then args ++ long else args in
  let args :=
    fold_left
      (fun args pattern =>
         args ++ [buildOption (js "exclude") (Str pattern) (escapeFileArg p)])
      (_excludes this) args in
  let args :=
    fold_left
      (fun args pattern =>
         args ++ [buildOption (js "include") (Str pattern) (escapeFileArg p)])
      (_includes this) args in
  let args :=
    if Nat.ltb 0 (List.length (_sources this))
    then args ++ List.map (escapeFileArg p) (_sources this) else args in
  let args :=
    if truthy (Str (_destination this))
    then args ++ [escapeFileArg p (_destination this)] else args in
  args.

Definition command (p : platform) (this : Rsync) : jsstring :=
  _executable this ++ js " " ++ join (js " ") (args p this).

(* ------------------------------------------------------------------ *)
(** ** The configuration object

    The fields of [RsyncOptions] that the constructors read.  A field that
    is absent is [None]; a boolean field that is absent is [false].  The
    boolean fields are looked up by name: the names of the interface, and
    the one-letter names that only the JavaScript variant reads. *)

Module Switch.

Inductive name : Type :=
| delete | progress | archive | compress | recursive | update | quiet
| dirs | links | dry | hardLinks | perms | executability | group | owner
| acls | xattrs | devices | specials | times
| a | z | r | u | q | d | l | n | H | p | E | g | o | A | X | t.

End Switch.

Inductive string_or_array : Type :=
| Single (s : jsstring)
| Array (xs : list jsstring).

Record RsyncOptions : Type := {
  source : option string_or_array;
  destination : option jsstring;
  executable : option jsstring;
  executableShell : option jsstring;
  flags : option string_or_array;
  shell : option jsstring;
  chmod : option string_or_array;
  exclude : option string_or_array;
  include : option string_or_array;
  set : option obj;
  enabled : Switch.name -> bool
}.

(** The literal [{}] as a configuration. *)
Definition no_options : RsyncOptions :=
  {| source := None; destination := None; executable := None;
     executableShell := None; flags := None; shell := None; chmod := None;
     exclude := None; include := None; set := None;
     enabled := fun _ => false |}.

(** What a caller can pass to [new Rsync(...)]. *)
Inductive js_arg : Type :=
| ArgUndefined
| ArgNull
| ArgBoolean (b : bool)
| ArgNumber (x : Z)
| ArgBigInt (x : Z)
| ArgString (s : jsstring)
| ArgSymbol
| ArgFunction
| ArgArray (xs : list jsstring)
| ArgObject (options : RsyncOptions).

Inductive js_type : Type :=
| TUndefined | TObject | TBoolean | TNumber | TBigInt | TString | TSymbol
| TFunction.

Definition typeof (x : js_arg) : js_type :=
  match x with
  | ArgUndefined => TUndefined
  | ArgNull => TObject
  | ArgBoolean _ => TBoolean
  | ArgNumber _ => TNumber
  | ArgBigInt _ => TBigInt
  | ArgString _ => TString
  | ArgSymbol => TSymbol
  | ArgFunction => TFunction
  | ArgArray _ => TObject
  | ArgObject _ => TObject
  end.

Definition is_object_type (t : js_type) : bool :=
  match t with TObject => true | _ => false end.

Definition Array_isArray (x : js_arg) : bool :=
  match x with ArgArray _ => true | _ => false end.

(** What a call throws: an [Error] made by the source with its message, or
    a [TypeError] raised by the engine (reading a property of [null],
    calling a method that does not exist). *)
Inductive exn : Type :=
| Error (message : jsstring)
| TypeError.

Inductive completion (A : Type) : Type :=
| Return (x : A)
| Throw (e : exn).
Arguments Return {A} x.
Arguments Throw {A} e.

(** Truthiness of an optional string, and of an optional string or array
    (an array is truthy even when it is empty). *)
Definition truthy_string (x : option jsstring) : bool :=
  match x with
  | Some (_ :: _) => true
  | _ => false
  end.

Definition truthy_sa (x : option string_or_array) : bool :=
  match x with
  | Some (Single (_ :: _)) => true
  | Some (Array _) => true
  | _ => false
  end.

(** [Array.isArray(x) ? x : [x]] on a truthy field. *)
Definition as_array (x : option string_or_array) : list jsstring :=
  match x with
  | Some (Array xs) => xs
  | Some (Single s) => [s]
  | None => []
  end.

(** The string a truthy field holds. *)
Definition string_of (x : option jsstring) : jsstring :=
  match x with
  | Some s => s
  | None => []
  end.

(** [x || fallback] *)
Definition or_default (x : option jsstring) (fallback : jsstring) : jsstring :=
  match x with
  | Some (c :: s) => c :: s
  | _ => fallback
  end.

(** [s.split] with the empty separator: one string per code unit. *)
Definition split_units (s : jsstring) : list jsstring :=
  List.map (fun c => [c]) s.

Definition with_sources (xs : list jsstring) (this : Rsync) : Rsync :=
  {| _executable := _executable this; _executableShell := _executableShell this;
     _sources := xs; _destination := _destination this;
     _includes := _includes this; _excludes := _excludes this;
     _options := _options this |}.

Definition with_destination (x : jsstring) (this : Rsync) : Rsync :=
  {| _executable := _executable this; _executableShell := _executableShell this;
     _sources := _sources this; _destination := x;
     _includes := _includes this; _excludes := _excludes this;
     _options := _options this |}.

Definition push_includes (xs : list jsstring) (this : Rsync) : Rsync :=
  {| _executable := _executable this; _executableShell := _executableShell this;
     _sources := _sources this; _destination := _destination this;
     _includes := _includes this ++ xs; _excludes := _excludes this;
     _options := _options this |}.

Definition push_excludes (xs : list jsstring) (this : Rsync) : Rsync :=
  {| _executable := _executable this; _executableShell := _executableShell this;
     _sources := _sources this; _destination := _destination this;
     _includes := _includes this; _excludes := _excludes this ++ xs;
     _options := _options this |}.

(** [this._options[key] = value] *)
Definition set_option (key : jsstring) (v : value) (this : Rsync) : Rsync :=
  {| _executable := _executable this; _executableShell := _executableShell this;
     _sources := _sources this; _destination := _destination this;
     _includes := _includes this; _excludes := _excludes this;
     _options := obj_set (_options this) key v |}.

(** [if (cond) { ... }] *)
Definition when (cond : bool) (f : Rsync -> Rsync) (this : Rsync) : Rsync :=
  if cond then f this else this.

(* ------------------------------------------------------------------ *)
(** ** The TypeScript variant: [_processOptions] and the constructor *)

(** [options.flags] when it is an array, else [options.flags.split] with
    the empty separator. *)
Definition flags_list (x : option string_or_array) : list jsstring :=
  match x with
  | Some (Array xs) => xs
  | Some (Single s) => split_units s
  | None => []
  end.

Definition set_flags (fl : list jsstring) (this : Rsync) : Rsync :=
  fold_left (fun this flag => set_option flag (One Null) this) fl this.

(** [this._options.k = null] for a key written in the source. *)
Definition flag_option (k : string) : Rsync -> Rsync :=
  set_option (js k) (One Null).

(** The loop over [Object.entries(options.set)]. *)
Definition merge_set (s : option obj) (this : Rsync) : Rsync :=
  match s with
  | Some o =>
      fold_left (fun this e => set_option (fst e) (snd e) this) (entries o) this
  | None => this
  end.

Definition _processOptions (options : RsyncOptions) (this : Rsync) : Rsync :=
  let on := enabled options in
  let this := when (truthy_sa (source options))
                   (with_sources (as_array (source options))) this in
  let this := when (truthy_string (destination options))
                   (with_destination (string_of (destination options))) this in
  let this := when (truthy_sa (flags options))
                   (set_flags (flags_list (flags options))) this in
  let this := when (truthy_string (shell options))
                   (set_option (js "rsh")
                      (One (Str (string_of (shell options))))) this in
  let this := when (on Switch.delete) (flag_option "delete") this in
  let this := when (on Switch.progress) (flag_option "progress") this in
  let this := when (on Switch.archive) (flag_option "a") this in
  let this := when (on Switch.compress) (flag_option "z") this in
  let this := when (on Switch.recursive) (flag_option "r") this in
  let this := when (on Switch.update) (flag_option "u") this in
  let this := when (on Switch.quiet) (flag_option "q") this in
  let this := when (on Switch.dirs) (flag_option "d") this in
  let this := when (on Switch.links) (flag_option "l") this in
  let this := when (on Switch.dry) (flag_option "n") this in
  let this := when (on Switch.hardLinks) (flag_option "H") this in
  let this := when (on Switch.perms) (flag_option "p") this in
  let this := when (on Switch.executability) (flag_option "E") this in
  let this := when (on Switch.group) (flag_option "g") this in
  let this := when (on Switch.owner) (flag_option "o") this in
  let this := when (on Switch.acls) (flag_option "A") this in
  let this := when (on Switch.xattrs) (flag_option "X") this in
  let this := when (on Switch.devices) (flag_option "devices") this in
  let this := when (on Switch.specials) (flag_option "specials") this in
  let this := when (on Switch.times) (flag_option "t") this in
  let this := when (truthy_sa (chmod options))
                   (set_option (js "chmod") (Many (as_array (chmod options))))
                   this in
  let this := when (truthy_sa (exclude options))
                   (push_excludes (as_array (exclude options))) this in
  let this := when (truthy_sa (include options))
                   (push_includes (as_array (include options))) this in
  merge_set (set options) this.

(** The fields the constructor sets before it calls [_processOptions]. *)
Definition initial (options : RsyncOptions) : Rsync :=
  {| _executable := or_default (executable options) (js "rsync");
     _executableShell := or_default (executableShell options) (js "/bin/sh");
     _sources := []; _destination := [];
     _includes := []; _excludes := [];
     _options := empty |}.

Definition must_be_an_Object : exn := Error (js "Rsync options must be an Object").

(** [constructor(options = {})]: the default stands in for [undefined]
    only.  [null] passes the guard, and the first property read throws. *)
Definition constructor (options : js_arg) : completion Rsync :=
  let options :=
    match options with ArgUndefined => ArgObject no_options | _ => options end in
  if (negb (is_object_type (typeof options)) || Array_isArray options)%bool
  then Throw must_be_an_Object
  else
    match options with
    | ArgObject o => Return (_processOptions o (initial o))
    | _ => Throw TypeError
    end.

(* ------------------------------------------------------------------ *)
(** ** Arrays with holes, and the two loops over an array value

    An array that a caller hands over (the kind [new Array(1)] makes for
    one) can have holes.  [_options.chmod] is the caller's array itself.
    The state of an instance holds arrays without holes, [Many xs]; as an
    array of slots such an array is [dense xs]. *)

Definition slots : Type := list (option jsstring).

Definition dense (xs : list jsstring) : slots := List.map Some xs.

(** What reading a slot gives: its element, or [undefined] for a hole. *)
Definition slot_value (slot : option jsstring) : scalar :=
  match slot with
  | Some s => Str s
  | None => Undefined
  end.

(** [for (const val of value)]: the iterator visits every index below the
    length, holes included. *)
Definition for_of {S : Type} (a : slots) (body : S -> scalar -> S) (s : S)
  : S :=
  fold_left (fun s slot => body s (slot_value slot)) a s.

(** [value.forEach((val) => ...)]: the callback runs on the slots that
    hold an element; a hole is skipped. *)
Definition forEach {S : Type} (a : slots) (callback : S -> scalar -> S)
           (s : S) : S :=
  fold_left (fun s slot =>
               match slot with
               | Some x => callback s (Str x)
               | None => s
               end) a s.

(** The loop of [args] over an array value in the TypeScript variant. *)
Definition array_tokens (key : jsstring) (a : slots) (long : list jsstring)
  : list jsstring :=
  for_of a (fun long val => long ++ [buildOption key val escapeShellArg]) long.

(* ------------------------------------------------------------------ *)
(** ** The JavaScript variant *)

Module Js.

(** What follows the [flags] block in [_processOptions]. *)
Definition _processOptions_rest (options : RsyncOptions) (this : Rsync)
  : Rsync :=
  let on := enabled options in
    let this := when (truthy_string (shell options))
                   (set_option (js "rsh")
                      (One (Str (string_of (shell options))))) this in
  let this := when (on Switch.delete) (flag_option "delete") this in
  let this := when (on Switch.progress) (flag_option "progress") this in
  let this := when (on Switch.archive || on Switch.a) (flag_option "a") this in
  let this := when (on Switch.compress || on Switch.z) (flag_option "z") this in
  let this := when (on Switch.recursive || on Switch.r) (flag_option "r") this in
  let this := when (on Switch.update || on Switch.u) (flag_option "u") this in
  let this := when (on Switch.quiet || on Switch.q) (flag_option "q") this in
  let this := when (on Switch.dirs || on Switch.d) (flag_option "d") this in
  let this := when (on Switch.links || on Switch.l) (flag_option "l") this in
  let this := when (on Switch.dry || on Switch.n) (flag_option "n") this in
  let this := when (on Switch.hardLinks || on Switch.H) (flag_option "H") this in
  let this := when (on Switch.perms || on Switch.p) (flag_option "p") this in
  let this := when (on Switch.executability || on Switch.E) (flag_option "E") this in
  let this := when (on Switch.group || on Switch.g) (flag_option "g") this in
  let this := when (on Switch.owner || on Switch.o) (flag_option "o") this in
  let this := when (on Switch.acls || on Switch.A) (flag_option "A") this in
  let this := when (on Switch.xattrs || on Switch.X) (flag_option "X") this in
  let this := when (on Switch.devices) (flag_option "devices") this in
  let this := when (on Switch.specials) (flag_option "specials") this in
  let this := when (on Switch.times || on Switch.t) (flag_option "t") this in
  let this := when (truthy_sa (chmod options))
                   (set_option (js "chmod") (Many (as_array (chmod options))))
                   this in
  let this := when (truthy_sa (exclude options))
                   (push_excludes (as_array (exclude options))) this in
  let this := when (truthy_sa (include options))
                   (push_includes (as_array (include options))) this in
  merge_set (set options) this.

(** [options.flags.split] is called on whatever truthy value the field
    holds; an array has no [split]. *)
Definition _processOptions (options : RsyncOptions) (this : Rsync)
  : completion Rsync :=
  let this := when (truthy_sa (source options))
                   (with_sources (as_array (source options))) this in
  let this := when (truthy_string (destination options))
                   (with_destination (string_of (destination options)))
                   this in
  if truthy_sa (flags options) then
    match flags options with
    | Some (Single s) =>
        Return (_processOptions_rest options (set_flags (split_units s) this))
    | _ => Throw TypeError
    end
  else Return (_processOptions_rest options this).

Definition constructor (options : js_arg) : completion Rsync :=
  let options :=
    match options with ArgUndefined => ArgObject no_options | _ => options end in
  if (negb (is_object_type (typeof options)) || Array_isArray options)%bool
  then Throw must_be_an_Object
  else
    match options with
    | ArgObject o => _processOptions o (initial o)
    | _ => Throw TypeError
    end.

(** The three functions at the end of the file, which are those of the
    TypeScript file without the type annotations. *)
Definition buildOption (name : jsstring) (value : scalar)
           (escapeArg : jsstring -> jsstring) : jsstring :=
  let single := Nat.eqb (List.length name) 1 in
  let prefix := if single then js "-" else js "--" in
  let glue := if single then js " " else js "=" in
  let option := prefix ++ name in
  if truthy value then option ++ glue ++ escapeArg (String_ value)
  else option.

Definition escapeShellArg (arg : jsstring) : jsstring :=
  if negb (test re_shell_test arg) then arg
  else [DQUOTE] ++ replace_g re_shell_replace backslash_group1 arg ++ [DQUOTE].

Definition escapeFileArg (p : platform) (filename : jsstring) : jsstring :=
  let filename := replace_g re_file_replace backslash_group1 filename in
  if negb (test re_double_backslash filename) then filename
  else
    if is_win32 p then
      replace_g re_drive (fun _ => js "/")
        (replace_g re_double_backslash (fun _ => js "/") filename)
    else filename.

(** The loop of [args] over an array value: [forEach]. *)
Definition array_tokens (key : jsstring) (a : slots) (long : list jsstring)
  : list jsstring :=
  forEach a (fun long val => long ++ [buildOption key val escapeShellArg]) long.

(** The body of the loop over [Object.entries(this._options)]. *)
Definition args_entry (acc : list jsstring * list jsstring)
           (e : jsstring * value) : list jsstring * list jsstring :=
  let '(short, long) := acc in
  let '(key, value) := e in
  if (Nat.eqb (List.length key) 1 && noval value)%bool then
    (short ++ [key], long)
  else
    match value with
    | Many vals => (short, array_tokens key (dense vals) long)
    | One v => (short, long ++ [buildOption key v escapeShellArg])
    end.

Definition args (p : platform) (this : Rsync) : list jsstring :=
  let args := [] in
  let '(short, long) :=
    fold_left args_entry (entries (_options this)) ([], []) in
  let args :=
    if Nat.ltb 0 (List.length short)
    then args ++ [js "-" ++ join [] short] else args in
  let args := if Nat.ltb 0 (List.length long) then args ++ long else args in
  let args :=
    forEach (dense (_excludes this))
      (fun args pattern =>
         args ++ [buildOption (js "exclude") pattern (escapeFileArg p)])
      args in
  let args :=
    forEach (dense (_includes this))
      (fun args pattern =>
         args ++ [buildOption (js "include") pattern (escapeFileArg p)])
      args in
  let args :=
    if Nat.ltb 0 (List.length (_sources this))
    then args ++ List.map (escapeFileArg p) (_sources this) else args in
  let args :=
    if truthy (Str (_destination this))
    then args ++ [escapeFileArg p (_destination this)] else args in
  args.

Definition command (p : platform) (this : Rsync) : jsstring :=
  _executable this ++ js " " ++ join (js " ") (args p this).

End Js.

(* ------------------------------------------------------------------ *)
(** ** The completion contract of [execute]

    The child process reports through two notifications; each handler
    calls one of the two resolving functions of the promise that [execute]
    returns.  A resolving function acts on a pending promise only.  Exit
    codes are integers, for which the template literal prints the decimal
    form. *)

Module Execute.

(** ['close'] with [code : number | null], and ['error']. *)
Inductive notification (E : Type) : Type :=
| Close (code : option Z)
| Failure (error : E).
Arguments Close {E} code.
Arguments Failure {E} error.

Record RsyncResult : Type := { code : Z; cmd : jsstring }.

Record RsyncError : Type := {
  message : jsstring;
  error_code : Z;
  error_cmd : jsstring
}.

Inductive rejection (E : Type) : Type :=
| ExitError (e : RsyncError)
| SpawnError (e : E).
Arguments ExitError {E} e.
Arguments SpawnError {E} e.

Inductive promise (E : Type) : Type :=
| Pending
| Fulfilled (r : RsyncResult)
| Rejected (e : rejection E).
Arguments Pending {E}.
Arguments Fulfilled {E} r.
Arguments Rejected {E} e.

Definition is_pending {E} (pr : promise E) : bool :=
  match pr with Pending => true | _ => false end.

Definition resolve {E} (r : RsyncResult) (pr : promise E) : promise E :=
  match pr with Pending => Fulfilled r | _ => pr end.

Definition reject {E} (e : rejection E) (pr : promise E) : promise E :=
  match pr with Pending => Rejected e | _ => pr end.

(** The text a template literal gives for [code]. *)
Definition show_code (c : option Z) : jsstring :=
  match c with
  | Some x => js (NilZero.string_of_int (Z.to_int x))
  | None => js "null"
  end.

(** [code ?? fallback] *)
Definition nullish (c : option Z) (fallback : Z) : Z :=
  match c with Some x => x | None => fallback end.

(** [code !== 0] *)
Definition not_zero (c : option Z) : bool :=
  match c with Some 0%Z => false | _ => true end.

Section Handlers.
Variable E : Type.
Variable p : platform.
Variable this : Rsync.

Definition on_close (c : option Z) (pr : promise E) : promise E :=
  if not_zero c then
    reject (ExitError
              {| message := js "rsync exited with code " ++ show_code c;
                 error_code := nullish c (-1);
                 error_cmd := command p this |}) pr
  else
    resolve {| code := nullish c 0; cmd := command p this |} pr.

Definition on_error (error : E) (pr : promise E) : promise E :=
  reject (SpawnError error) pr.

Definition handle (pr : promise E) (n : notification E) : promise E :=
  match n with
  | Close c => on_close c pr
  | Failure error => on_error error pr
  end.

(** The promise of one call, after the notifications of its child
    process have been handled in their order of arrival. *)
Definition execute (ns : list (notification E)) : promise E :=
  fold_left handle ns Pending.

(** How many notifications moved the promise out of [Pending]. *)
Fixpoint settlements (pr : promise E) (ns : list (notification E)) : nat :=
  match ns with
  | [] => 0
  | n :: rest =>
      (if (is_pending pr && negb (is_pending (handle pr n)))%bool
       then 1 else 0) + settlements (handle pr n) rest
  end.

End Handlers.

Arguments on_close {E} p this c pr.
Arguments on_error {E} error pr.
Arguments handle {E} p this pr n.
Arguments execute {E} p this ns.
Arguments settlements {E} p this pr ns.

End Execute.

(* ------------------------------------------------------------------ *)
(** ** What the escaping functions are compared with *)

(** One code unit, escaped the way [class] asks. *)
Definition escape_unit (class : char16 -> bool) (c : char16) : jsstring :=
  if class c then [BACKSLASH; c] else [c].

(** The code units [escapeShellArg] escapes, and those that make it quote. *)
Definition shell_special : char16 -> bool :=
  one_of [DQUOTE; SQUOTE; BACKTICK; BACKSLASH; DOLLAR].

Definition shell_trigger : char16 -> bool :=
  one_of [DQUOTE; SQUOTE; BACKTICK; BACKSLASH; DOLLAR; SPACE].

Definition is_backslash : char16 -> bool := N.eqb BACKSLASH.

(** Two backslashes side by side somewhere in [l]. *)
Fixpoint has_backslash_pair (l : jsstring) : bool :=
  match l with
  | [] => false
  | x :: rest =>
      match rest with
      | y :: _ => (is_backslash x && is_backslash y)%bool
      | [] => false
      end || has_backslash_pair rest
  end.

(** What the first [replace] of [escapeFileArg] returns. *)
Definition file_escape (s : jsstring) : jsstring :=
  flat_map (escape_unit class_file) s.

(** One code unit after the Windows rewrite: a backslash has become a
    slash, the other escaped code units keep their backslash. *)
Definition slash_unit (c : char16) : jsstring :=
  if is_backslash c then [SLASH] else escape_unit class_file c.

(** A leading letter, colon and slash replaced by a slash. *)
Definition strip_drive (l : jsstring) : jsstring :=
  match l with
  | x :: c :: sl :: rest =>
      if (class_AZ_i x && N.eqb COLON c && N.eqb SLASH sl)%bool
      then SLASH :: rest else l
  | _ => l
  end.

(** The string begins like a drive-rooted Windows path: a letter, a colon,
    a backslash. *)
Definition drive_rooted (s : jsstring) : bool :=
  match s with
  | x :: c :: b :: _ => (class_AZ_i x && N.eqb COLON c && is_backslash b)%bool
  | _ => false
  end.

(* ------------------------------------------------------------------ *)
(** ** What [args] is compared with: the token list, part by part *)

(** A key of one code unit that carries no value. *)
Definition is_short_flag (e : jsstring * value) : bool :=
  (Nat.eqb (List.length (fst e)) 1 && noval (snd e))%bool.

Definition short_keys (es : list (jsstring * value)) : list jsstring :=
  List.map fst (filter is_short_flag es).

(** The combined token, present when there is a short flag. *)
Definition combined_token (es : list (jsstring * value)) : list jsstring :=
  match short_keys es with
  | [] => []
  | ks => [js "-" ++ List.concat ks]
  end.

(** The tokens of one entry that is not a short flag: one per element of
    an array, one otherwise. *)
Definition entry_tokens (e : jsstring * value) : list jsstring :=
  match snd e with
  | Many vals =>
      List.map (fun val => buildOption (fst e) (Str val) escapeShellArg) vals
  | One v => [buildOption (fst e) v escapeShellArg]
  end.

Definition separate_tokens (es : list (jsstring * value)) : list jsstring :=
  flat_map entry_tokens (filter (fun e => negb (is_short_flag e)) es).

Definition exclude_token (p : platform) (pattern : jsstring) : jsstring :=
  buildOption (js "exclude") (Str pattern) (escapeFileArg p).

Definition include_token (p : platform) (pattern : jsstring) : jsstring :=
  buildOption (js "include") (Str pattern) (escapeFileArg p).

Definition destination_tokens (p : platform) (d : jsstring) : list jsstring :=
  match d with
  | [] => []
  | _ => [escapeFileArg p d]
  end.

(** The token list for the option entries taken in the order [es]. *)
Definition rendered (p : platform) (es : list (jsstring * value))
           (this : Rsync) : list jsstring :=
  combined_token es ++ separate_tokens es
  ++ List.map (exclude_token p) (_excludes this)
  ++ List.map (include_token p) (_includes this)
  ++ List.map (escapeFileArg p) (_sources this)
  ++ destination_tokens p (_destination this).

(** The token list as the specification words it: the option entries in
    the order in which their keys were inserted. *)
Definition args_in_insertion_order (p : platform) (this : Rsync)
  : list jsstring :=
  rendered p (own (_options this)) this.

(** The order of [Object.entries] in words: [es] is the entries whose
    keys are array indices, by ascending index, and behind them the other
    entries as they stand in [own o]. *)
Definition index_keys_first (o : obj) (es : list (jsstring * value)) : Prop :=
  exists indexed : list (N * (jsstring * value)),
    es = List.map snd indexed
         ++ filter (fun e => negb (is_array_index (fst e))) (own o)
    /\ Forall (fun ie => array_index (fst (snd ie)) = Some (fst ie)) indexed
    /\ StronglySorted N.le (List.map fst indexed)
    /\ Permutation (List.map snd indexed)
                   (filter (fun e => is_array_index (fst e)) (own o)).

(** No key of the object is an array index. *)
Definition no_index_key (o : obj) : bool :=
  forallb (fun e => negb (is_array_index (fst e))) (own o).

(** The instance with its options removed. *)
Definition without_options (this : Rsync) : Rsync :=
  {| _executable := _executable this; _executableShell := _executableShell this;
     _sources := _sources this; _destination := _destination this;
     _includes := _includes this; _excludes := _excludes this;
     _options := empty |}.

(** The prefix [buildOption] gives a key. *)
Definition option_prefix (name : jsstring) : jsstring :=
  if Nat.eqb (List.length name) 1 then js "-" else js "--".

(* ------------------------------------------------------------------ *)
(** ** Configurations used as concrete inputs *)

(** [{ flags: 'avz', source: 'SOURCE', destination: 'DESTINATION',
       exclude: ['.git', 'build/*'], include: ['/tests/*.test.js', '*.md'] }] *)
Definition sample_filters : RsyncOptions :=
  {| source := Some (Single (js "SOURCE"));
     destination := Some (js "DESTINATION");
     executable := None; executableShell := None;
     flags := Some (Single (js "avz")); shell := None; chmod := None;
     exclude := Some (Array [js ".git"; js "build/*"]);
     include := Some (Array [js "/tests/*.test.js"; js "*.md"]);
     set := None; enabled := fun _ => false |}.

(** [{ flags: 'a4' }]: archive mode over IPv4. *)
Definition sample_flags_a4 : RsyncOptions :=
  {| source := None; destination := None; executable := None;
     executableShell := None; flags := Some (Single (js "a4"));
     shell := None; chmod := None; exclude := None; include := None;
     set := None; enabled := fun _ => false |}.

(** [{ shell: 'ssh', set: { '4': '' } }] *)
Definition sample_shell_then_digit : RsyncOptions :=
  {| source := None; destination := None; executable := None;
     executableShell := None; flags := None; shell := Some (js "ssh");
     chmod := None; exclude := None; include := None;
     set := Some (obj_set empty (js "4") (One (Str [])));
     enabled := fun _ => false |}.

(** [{ a: true }] *)
Definition sample_alias_a : RsyncOptions :=
  {| source := None; destination := None; executable := None;
     executableShell := None; flags := None; shell := None; chmod := None;
     exclude := None; include := None; set := None;
     enabled := fun s => match s with Switch.a => true | _ => false end |}.

(** The instance the TypeScript constructor builds from an object. *)
Definition build (options : RsyncOptions) : Rsync :=
  _processOptions options (initial options).

(* ------------------------------------------------------------------ *)
(** ** What the constructors are compared with *)

(** The call threw the error of the guard. *)
Definition throws_must_be_an_Object {A : Type} (c : completion A) : bool :=
  match c with
  | Throw (Error m) => jsstring_eqb m (js "Rsync options must be an Object")
  | _ => false
  end.

(** The one-letter names the JavaScript variant reads, each with the name
    of the interface it stands for. *)
Definition aliases : list (Switch.name * Switch.name) :=
  [(Switch.a, Switch.archive); (Switch.z, Switch.compress);
   (Switch.r, Switch.recursive); (Switch.u, Switch.update);
   (Switch.q, Switch.quiet); (Switch.d, Switch.dirs);
   (Switch.l, Switch.links); (Switch.n, Switch.dry);
   (Switch.H, Switch.hardLinks); (Switch.p, Switch.perms);
   (Switch.E, Switch.executability); (Switch.g, Switch.group);
   (Switch.o, Switch.owner); (Switch.A, Switch.acls);
   (Switch.X, Switch.xattrs); (Switch.t, Switch.times)].

(** No one-letter field is truthy unless the field it stands for is. *)
Definition aliases_shadowed (options : RsyncOptions) : bool :=
  forallb (fun pr => implb (enabled options (fst pr)) (enabled options (snd pr)))
          aliases.

(** The instance the JavaScript constructor builds from an object it
    accepts. *)
Definition build_js (options : RsyncOptions) : Rsync :=
  match Js._processOptions options (initial options) with
  | Return this => this
  | Throw _ => initial options
  end.

(** Configurations of the repository's tests. *)
Definition test_exclude_four : RsyncOptions :=
  {| source := Some (Single (js "path_a/"));
     destination := Some (js "path_b");
     executable := None; executableShell := None;
     flags := Some (Single (js "avz")); shell := None; chmod := None;
     exclude := Some (Array [js "no-go.txt"; js "with space"; js ".git";
                             js "*.tiff"]);
     include := None; set := None; enabled := fun _ => false |}.

Definition test_set_f : RsyncOptions :=
  {| source := Some (Single (js "test-dir/"));
     destination := Some (js "test-dir-copy");
     executable := None; executableShell := None;
     flags := Some (Single (js "rav")); shell := None; chmod := None;
     exclude := None; include := None;
     set := Some (obj_set empty (js "f") (One (Str (js "- .git"))));
     enabled := fun _ => false |}.

Definition test_chmod_array : RsyncOptions :=
  {| source := Some (Single (js "source"));
     destination := Some (js "destination");
     executable := None; executableShell := None;
     flags := None; shell := None;
     chmod := Some (Array [js "og=uwx"; js "rx=ogw"]);
     exclude := None; include := None; set := None;
     enabled := fun _ => false |}.

Definition test_set_custom : RsyncOptions :=
  {| source := None; destination := None;
     executable := None; executableShell := None;
     flags := None; shell := None; chmod := None;
     exclude := None; include := None;
     set := Some (obj_set (obj_set empty (js "max-size") (One (Str (js "1009"))))
                          (js "inplace") (One Null));
     enabled := fun _ => false |}.

Definition test_windows_source : RsyncOptions :=
  {| source := Some (Array [js "C:\home\username\develop\readme.txt"]);
     destination := Some (js "themoon");
     executable := None; executableShell := None;
     flags := None; shell := None; chmod := None;
     exclude := None; include := None; set := None;
     enabled := fun _ => false |}.

(* ------------------------------------------------------------------ *)
(** ** Reading escaped strings back

    Not functions of the source: they state what the escaping functions
    keep of their argument. *)

(** A reader that takes the code unit behind a backslash as it stands. *)
Fixpoint unescape (s : jsstring) : jsstring :=
  match s with
  | [] => []
  | c :: rest =>
      if is_backslash c then
        match rest with
        | d :: rest' => d :: unescape rest'
        | [] => []
        end
      else c :: unescape rest
  end.

(** A reader for the output of [escapeShellArg]: a string that opens with
    a double quote is unescaped and loses its two quotes. *)
Definition shell_unquote (t : jsstring) : jsstring :=
  match t with
  | c :: body =>
      if N.eqb c DQUOTE then removelast (unescape body) else t
  | [] => []
  end.

(** The paths and patterns of an instance. *)
Definition paths_of (this : Rsync) : list jsstring :=
  _excludes this ++ _includes this ++ _sources this ++ [_destination this].

(* ------------------------------------------------------------------ *)
(** ** The accessors and the spawn of [execute] *)

Module Method.

Definition executable (this : Rsync) : jsstring := _executable this.

Definition source (this : Rsync) : list jsstring := _sources this.

Definition destination (this : Rsync) : jsstring := _destination this.

Definition toString (p : platform) (this : Rsync) : jsstring :=
  command p this.

End Method.

(** The first two arguments of the call of [spawn] in [execute], and its
    [windowsVerbatimArguments] option; [stdio], [cwd] and [env] are passed
    on as they are. *)
Record spawn_call : Type := {
  spawn_file : jsstring;
  spawn_args : list jsstring;
  spawn_verbatim : bool
}.

Definition spawn_of (p : platform) (this : Rsync) : spawn_call :=
  if is_win32 p then
    {| spawn_file := js "cmd.exe";
       spawn_args := [js "/s"; js "/c"; [DQUOTE] ++ command p this ++ [DQUOTE]];
       spawn_verbatim := true |}
  else
    {| spawn_file := _executableShell this;
       spawn_args := [js "-c"; command p this];
       spawn_verbatim := false |}.

(* ------------------------------------------------------------------ *)
(** ** What the constructor is compared with *)

(** The own property of an object under a key, as [hasOwnProperty] and a
    read would give it. *)
Definition own_property (o : obj) (k : jsstring) : option value :=
  option_map snd (find (fun e => jsstring_eqb k (fst e)) (own o)).

(** The steps of [_processOptions] that write a path or a pattern. *)
Definition path_steps (options : RsyncOptions) (this : Rsync) : Rsync :=
  let this := when (truthy_sa (source options))
                   (with_sources (as_array (source options))) this in
  let this := when (truthy_string (destination options))
                   (with_destination (string_of (destination options))) this in
  let this := when (truthy_sa (exclude options))
                   (push_excludes (as_array (exclude options))) this in
  when (truthy_sa (include options))
       (push_includes (as_array (include options))) this.

(** A field that holds a string or an array, if it is truthy. *)
Definition listed (x : option string_or_array) : list jsstring :=
  if truthy_sa x then as_array x else [].

(** The combined token of a string of flags. *)
Definition flags_token (s : jsstring) : list jsstring :=
  match s with
  | [] => []
  | _ => [js "-" ++ s]
  end.

(** A step that writes to [_options] only. *)
Definition options_only (f : Rsync -> Rsync) : Prop :=
  forall this, without_options (f this) = without_options this.

(** A step that writes to the other fields, whatever [_options] holds. *)
Definition paths_only (g : Rsync -> Rsync) : Prop :=
  forall this, without_options (g this) = g (without_options this).

(** One write to an option object. *)
Definition write (ob : obj) (kv : jsstring * value) : obj :=
  obj_set ob (fst kv) (snd kv).

(** The boolean fields the TypeScript variant reads, each with its key, in
    the order of [_processOptions]. *)
Definition switch_keys : list (Switch.name * string) :=
  [(Switch.delete, "delete"); (Switch.progress, "progress");
   (Switch.archive, "a"); (Switch.compress, "z"); (Switch.recursive, "r");
   (Switch.update, "u"); (Switch.quiet, "q"); (Switch.dirs, "d");
   (Switch.links, "l"); (Switch.dry, "n"); (Switch.hardLinks, "H");
   (Switch.perms, "p"); (Switch.executability, "E"); (Switch.group, "g");
   (Switch.owner, "o"); (Switch.acls, "A"); (Switch.xattrs, "X");
   (Switch.devices, "devices"); (Switch.specials, "specials");
   (Switch.times, "t")]%string.

(** The writes to [_options] that a configuration asks for, in order. *)
Definition option_writes (options : RsyncOptions) : list (jsstring * value) :=
  List.map (fun k => (k, One Null))
           (if truthy_sa (flags options) then flags_list (flags options) else [])
  ++ (if truthy_string (shell options)
      then [(js "rsh", One (Str (string_of (shell options))))] else [])
  ++ flat_map (fun sk => if enabled options (fst sk)
                         then [(js (snd sk), One Null)] else [])
              switch_keys
  ++ (if truthy_sa (chmod options)
      then [(js "chmod", Many (as_array (chmod options)))] else [])
  ++ match set options with
     | Some s => entries s
     | None => []
     end.

(** The last value written under a key. *)
Definition last_write (k : jsstring) (ws : list (jsstring * value))
  : option value :=
  option_map snd (find (fun e => jsstring_eqb k (fst e)) (rev ws)).

(** [{ shell: 'ssh', set: { rsh: 'ssh -p 2222' } }] *)
Definition sample_set_over_shell : RsyncOptions :=
  {| source := None; destination := None; executable := None;
     executableShell := None; flags := None; shell := Some (js "ssh");
     chmod := None; exclude := None; include := None;
     set := Some (obj_set empty (js "rsh") (One (Str (js "ssh -p 2222"))));
     enabled := fun _ => false |}.

(** The configuration with other boolean fields. *)
Definition with_enabled (f : Switch.name -> bool) (options : RsyncOptions)
  : RsyncOptions :=
  {| source := source options; destination := destination options;
     executable := executable options;
     executableShell := executableShell options;
     flags := flags options; shell := shell options; chmod := chmod options;
     exclude := exclude options; include := include options;
     set := set options; enabled := f |}.

(** The boolean fields without a one-letter alias. *)
Definition unaliased : list Switch.name :=
  [Switch.delete; Switch.progress; Switch.devices; Switch.specials].

(** Two settings of the boolean fields that the JavaScript variant cannot
    tell apart: the same on the fields without alias, and for every other
    field the same disjunction of the field and its alias. *)
Definition same_for_js (f g : Switch.name -> bool) : bool :=
  (forallb (fun n => Bool.eqb (f n) (g n)) unaliased
   && forallb (fun pr => Bool.eqb (f (snd pr) || f (fst pr))
                                  (g (snd pr) || g (fst pr)))
              aliases)%bool.

(** Two settings that are the same on the fields of the interface. *)
Definition same_for_ts (f g : Switch.name -> bool) : bool :=
  forallb (fun sk => Bool.eqb (f (fst sk)) (g (fst sk))) switch_keys.

(** [{ archive: true }] *)
Definition sample_archive : RsyncOptions :=
  {| source := None; destination := None; executable := None;
     executableShell := None; flags := None; shell := None; chmod := None;
     exclude := None; include := None; set := None;
     enabled := fun s => match s with Switch.archive => true | _ => false end |}.

(* ------------------------------------------------------------------ *)
(** ** The expectations of the repository's tests, on the model *)

(** Closed equations between strings are settled by evaluation. *)
Ltac by_evaluation := vm_compute; reflexivity.

Example test_output_exclude_four :
  command Posix (build test_exclude_four)
  = js "rsync -avz --exclude=no-go.txt --exclude=with\ space --exclude=.git --exclude=*.tiff path_a/ path_b".
Proof. by_evaluation. Qed.

Example test_output_set_f :
  command Posix (build test_set_f)
  = js "rsync -rav -f " ++ [DQUOTE] ++ js "- .git" ++ [DQUOTE]
    ++ js " test-dir/ test-dir-copy".
Proof. by_evaluation. Qed.

Example test_output_chmod_array :
  command Posix (build test_chmod_array)
  = js "rsync --chmod=og=uwx --chmod=rx=ogw source destination".
Proof. by_evaluation. Qed.

Example test_output_filters :
  command Posix (build sample_filters)
  = js "rsync -avz --exclude=.git --exclude=build/* --include=/tests/*.test.js --include=*.md SOURCE DESTINATION".
Proof. by_evaluation. Qed.

Example test_output_set_custom :
  command Posix (build test_set_custom)
  = js "rsync --max-size=1009 --inplace".
Proof. by_evaluation. Qed.

Example test_output_windows_source :
  command Win32 (build test_windows_source)
  = js "rsync /home/username/develop/readme.txt themoon".
Proof. by_evaluation. Qed.

Example test_constructor_rejects_string_and_array :
  constructor (ArgString (js "string")) = Throw must_be_an_Object
  /\ constructor (ArgArray []) = Throw must_be_an_Object
  /\ Js.constructor (ArgString (js "string")) = Throw must_be_an_Object.
Proof. repeat split. Qed.

(* ------------------------------------------------------------------ *)
(** ** Facts about the patterns of the source *)

Section ClassPatterns.

Variable p : char16 -> bool.
Variable template : jsstring -> jsstring.

Lemma match_here_class (b : bool) (s : jsstring) :
  match_here [Cls p] b s
  = match s with
    | c :: _ => if p c then Some 1 else None
    | [] => None
    end.
Proof.
  destruct s as [|c s']; simpl; [reflexivity|].
  destruct (p c); reflexivity.
Qed.

(** Testing a one-class pattern is looking for a code unit of the class. *)
Lemma search_class (b : bool) (s : jsstring) :
  search [Cls p] b s = existsb p s.
Proof.
  revert b; induction s as [|c s' IH]; intros b.
  - reflexivity.
  - cbn [search]. rewrite match_here_class. cbn [existsb].
    destruct (p c); [reflexivity|]. apply IH.
Qed.

(** Replacing a one-class pattern globally rewrites every code unit of
    the class, each on its own. *)
Lemma replace_class (b : bool) (s : jsstring) :
  replace_from [Cls p] template b 0 s
  = flat_map (fun c => if p c then template [c] else [c]) s.
Proof.
  revert b; induction s as [|c s' IH]; intros b.
  - reflexivity.
  - cbn [replace_from flat_map]. rewrite match_here_class.
    destruct (p c).
    + cbn [firstn]. rewrite IH. reflexivity.
    + rewrite IH. reflexivity.
Qed.

End ClassPatterns.


Lemma escapeShellArg_eq (arg : jsstring) :
  escapeShellArg arg
  = if existsb shell_trigger arg
    then [DQUOTE] ++ flat_map (escape_unit shell_special) arg ++ [DQUOTE]
    else arg.
Proof.
  unfold escapeShellArg, test, re_shell_test, replace_g, re_shell_replace.
  rewrite search_class, replace_class.
  fold shell_trigger. destruct (existsb shell_trigger arg); reflexivity.
Qed.


Lemma search_double_backslash (b : bool) (l : jsstring) :
  search re_double_backslash b l = has_backslash_pair l.
Proof.
  revert b; induction l as [|x rest IH]; intros b; [reflexivity|].
  cbn [search has_backslash_pair]. rewrite <- (IH false).
  unfold re_double_backslash at 1. cbn [match_here]. fold is_backslash.
  destruct (is_backslash x).
  - destruct rest as [|y rest']; [reflexivity|].
    destruct (is_backslash y); reflexivity.
  - destruct rest; reflexivity.
Qed.

Lemma has_backslash_pair_skip (x : char16) (l : jsstring) :
  is_backslash x = false ->
  has_backslash_pair (x :: l) = has_backslash_pair l.
Proof.
  intros Hx. cbn [has_backslash_pair]. rewrite Hx.
  destruct l; reflexivity.
Qed.

Lemma has_backslash_pair_cons (x y : char16) (l : jsstring) :
  has_backslash_pair (x :: y :: l)
  = ((is_backslash x && is_backslash y) || has_backslash_pair (y :: l))%bool.
Proof. reflexivity. Qed.


Lemma class_file_backslash (c : char16) :
  is_backslash c = true -> class_file c = true.
Proof.
  unfold is_backslash. intros H. apply N.eqb_eq in H. subst c. reflexivity.
Qed.

Lemma not_class_file_not_backslash (c : char16) :
  class_file c = false -> is_backslash c = false.
Proof.
  intros H. destruct (is_backslash c) eqn:E; [|reflexivity].
  apply class_file_backslash in E. congruence.
Qed.

(** The escaped string holds a doubled backslash exactly when the string
    itself holds a backslash. *)
Lemma file_escape_pair (s : jsstring) :
  has_backslash_pair (file_escape s) = existsb is_backslash s.
Proof.
  induction s as [|c s' IH]; [reflexivity|].
  unfold file_escape in *. cbn [flat_map existsb]. unfold escape_unit at 1.
  destruct (class_file c) eqn:Hc.
  - destruct (is_backslash c) eqn:Hb.
    + apply N.eqb_eq in Hb. subst c. reflexivity.
    + change ([BACKSLASH; c] ++ flat_map (escape_unit class_file) s')
        with (BACKSLASH :: c :: flat_map (escape_unit class_file) s').
      rewrite has_backslash_pair_cons, Hb, andb_false_r. cbn [orb].
      rewrite has_backslash_pair_skip by exact Hb. exact IH.
  - cbn [app]. rewrite (not_class_file_not_backslash _ Hc).
    rewrite has_backslash_pair_skip
      by (apply not_class_file_not_backslash; exact Hc).
    exact IH.
Qed.


Lemma replace_from_skip (re : regex) (t : jsstring -> jsstring) (b : bool)
      (k : nat) (c : char16) (s : jsstring) :
  replace_from re t b (S k) (c :: s) = replace_from re t false k s.
Proof. reflexivity. Qed.

Lemma replace_from_step (re : regex) (t : jsstring -> jsstring) (b : bool)
      (c : char16) (s : jsstring) :
  replace_from re t b 0 (c :: s)
  = match match_here re b (c :: s) with
    | Some 0 => t [] ++ c :: replace_from re t false 0 s
    | Some (S k) => t (firstn (S k) (c :: s)) ++ replace_from re t false k s
    | None => c :: replace_from re t false 0 s
    end.
Proof. reflexivity. Qed.

Lemma match_here_double_backslash (b : bool) (l : jsstring) :
  match_here re_double_backslash b l
  = match l with
    | x :: y :: _ =>
        if (is_backslash x && is_backslash y)%bool then Some 2 else None
    | _ => None
    end.
Proof.
  destruct l as [|x [|y l']]; cbn [re_double_backslash match_here];
    fold is_backslash.
  - reflexivity.
  - destruct (is_backslash x); reflexivity.
  - destruct (is_backslash x), (is_backslash y); reflexivity.
Qed.

Lemma replace_double_backslash (b : bool) (s : jsstring) :
  replace_from re_double_backslash (fun _ => js "/") b 0 (file_escape s)
  = flat_map slash_unit s.
Proof.
  revert b; induction s as [|c s' IH]; intros b; [reflexivity|].
  unfold file_escape in *. cbn [flat_map]. unfold slash_unit at 1.
  unfold escape_unit at 1 3.
  destruct (is_backslash c) eqn:Hb.
  - rewrite (class_file_backslash _ Hb).
    change ([BACKSLASH; c] ++ flat_map (escape_unit class_file) s')
      with (BACKSLASH :: c :: flat_map (escape_unit class_file) s').
    rewrite replace_from_step, match_here_double_backslash, Hb.
    change (is_backslash BACKSLASH) with true. cbn [andb].
    rewrite replace_from_skip, IH. reflexivity.
  - destruct (class_file c) eqn:Hc.
    + change ([BACKSLASH; c] ++ flat_map (escape_unit class_file) s')
        with (BACKSLASH :: c :: flat_map (escape_unit class_file) s').
      rewrite replace_from_step, match_here_double_backslash, Hb, andb_false_r.
      rewrite replace_from_step, match_here_double_backslash, Hb.
      cbn [andb]. rewrite IH.
      destruct (flat_map (escape_unit class_file) s'); reflexivity.
    + cbn [app].
      rewrite replace_from_step, match_here_double_backslash, Hb.
      cbn [andb]. rewrite IH.
      destruct (flat_map (escape_unit class_file) s'); reflexivity.
Qed.

(** An anchored pattern matches at the start of the input or nowhere. *)
Lemma replace_anchored_tail (re : regex) (t : jsstring -> jsstring)
      (k : nat) (l : jsstring) :
  replace_from (Bol :: re) t false k l = skipn k l.
Proof.
  revert k; induction l as [|c l' IH]; intros k.
  - destruct k; reflexivity.
  - destruct k as [|k].
    + rewrite replace_from_step. cbn [match_here]. rewrite IH. reflexivity.
    + rewrite replace_from_skip. rewrite IH. reflexivity.
Qed.

Lemma replace_anchored (re : regex) (t : jsstring -> jsstring) (l : jsstring) :
  replace_g (Bol :: re) t l
  = match match_here (Bol :: re) true l with
    | Some n => t (firstn n l) ++ skipn n l
    | None => l
    end.
Proof.
  unfold replace_g. destruct l as [|c l'].
  - cbn [replace_from]. destruct (match_here (Bol :: re) true []) as [n|].
    + rewrite firstn_nil, skipn_nil, app_nil_r. reflexivity.
    + reflexivity.
  - rewrite replace_from_step.
    destruct (match_here (Bol :: re) true (c :: l')) as [[|k]|].
    + rewrite replace_anchored_tail. reflexivity.
    + rewrite replace_anchored_tail. reflexivity.
    + rewrite replace_anchored_tail. reflexivity.
Qed.

(** The drive pattern on a string that does not begin with a double quote. *)
Lemma match_here_drive (l : jsstring) :
  hd_error l <> Some DQUOTE ->
  match_here re_drive true l
  = match l with
    | x :: c :: sl :: _ =>
        if (class_AZ_i x && N.eqb COLON c && N.eqb SLASH sl)%bool
        then Some 3 else None
    | _ => None
    end.
Proof.
  intros Hq. unfold re_drive. cbn [match_here].
  destruct l as [|x l1]; [reflexivity|].
  assert (Hx : (DQUOTE =? x)%N = false).
  { apply N.eqb_neq. intros Hd. apply Hq. rewrite <- Hd. reflexivity. }
  rewrite Hx.
  destruct l1 as [|c [|sl l3]].
  - destruct (class_AZ_i x); reflexivity.
  - destruct (class_AZ_i x), (COLON =? c)%N; reflexivity.
  - destruct (class_AZ_i x), (COLON =? c)%N, (SLASH =? sl)%N; reflexivity.
Qed.

Lemma replace_drive (l : jsstring) :
  hd_error l <> Some DQUOTE ->
  replace_g re_drive (fun _ => js "/") l = strip_drive l.
Proof.
  intros Hq. unfold re_drive at 1. rewrite replace_anchored.
  fold re_drive. rewrite (match_here_drive _ Hq). unfold strip_drive.
  destruct l as [|x [|c [|sl rest]]]; try reflexivity.
  destruct (class_AZ_i x && (COLON =? c)%N && (SLASH =? sl)%N)%bool;
    reflexivity.
Qed.

(** After the rewrite no string begins with a double quote: the quote is
    escaped, so a backslash comes first. *)
Lemma slashed_head (s : jsstring) :
  hd_error (flat_map slash_unit s) <> Some DQUOTE.
Proof.
  destruct s as [|c s']; [discriminate|].
  cbn [flat_map]. unfold slash_unit, escape_unit.
  destruct (is_backslash c); [discriminate|].
  destruct (class_file c) eqn:Hc; [discriminate|].
  cbn [app hd_error]. intros H. injection H as H. subst c.
  discriminate Hc.
Qed.

(** [escapeFileArg] in full. *)
Lemma escapeFileArg_eq (p : platform) (s : jsstring) :
  escapeFileArg p s
  = if (is_win32 p && existsb is_backslash s)%bool
    then strip_drive (flat_map slash_unit s)
    else file_escape s.
Proof.
  unfold escapeFileArg, test, replace_g, re_file_replace.
  rewrite replace_class.
  change (flat_map (fun c => if class_file c then backslash_group1 [c] else [c]) s)
    with (file_escape s).
  rewrite search_double_backslash, file_escape_pair.
  destruct (existsb is_backslash s); cbn [negb].
  - destruct p; cbn [is_win32 andb]; [|reflexivity].
    rewrite replace_double_backslash.
    apply replace_drive, slashed_head.
  - rewrite andb_false_r. reflexivity.
Qed.

(* ------------------------------------------------------------------ *)
(** ** Facts about [args] *)

Lemma join_empty_separator (l : list jsstring) : join [] l = List.concat l.
Proof.
  induction l as [|x rest IH]; [reflexivity|].
  destruct rest as [|y rest'].
  - cbn. rewrite app_nil_r. reflexivity.
  - change (join [] (x :: y :: rest')) with (x ++ [] ++ join [] (y :: rest')).
    rewrite IH. reflexivity.
Qed.

(** A loop of pushes appends the images in order. *)
Lemma fold_left_push {A B : Type} (f : A -> B) (l : list A) (acc : list B) :
  fold_left (fun acc x => acc ++ [f x]) l acc = acc ++ List.map f l.
Proof.
  revert acc; induction l as [|x rest IH]; intros acc; cbn [fold_left List.map].
  - rewrite app_nil_r. reflexivity.
  - rewrite IH, <- app_assoc. reflexivity.
Qed.

Lemma args_entry_eq (short long : list jsstring) (e : jsstring * value) :
  args_entry (short, long) e
  = if is_short_flag e then (short ++ [fst e], long)
    else (short, long ++ entry_tokens e).
Proof.
  destruct e as [key v]. unfold args_entry, is_short_flag, entry_tokens.
  cbn [fst snd].
  destruct (Nat.eqb (List.length key) 1 && noval v)%bool; [reflexivity|].
  destruct v as [x|vals]; [reflexivity|].
  rewrite (fold_left_push (fun val => buildOption key (Str val) escapeShellArg)).
  reflexivity.
Qed.

(** The loop over the entries sorts them into the two lists and keeps
    their order in each. *)
Lemma args_loop (es : list (jsstring * value)) (short long : list jsstring) :
  fold_left args_entry es (short, long)
  = (short ++ short_keys es, long ++ separate_tokens es).
Proof.
  revert short long; induction es as [|e rest IH]; intros short long.
  - cbn. rewrite !app_nil_r. reflexivity.
  - cbn [fold_left]. rewrite args_entry_eq.
    unfold short_keys, separate_tokens. cbn [filter].
    destruct (is_short_flag e); cbn [negb List.map flat_map].
    + rewrite IH. unfold short_keys. rewrite <- app_assoc. reflexivity.
    + rewrite IH. unfold separate_tokens. rewrite <- app_assoc. reflexivity.
Qed.


(** [args] is the part-by-part token list over [Object.entries]. *)
Lemma args_rendered (p : platform) (this : Rsync) :
  args p this = rendered p (entries (_options this)) this.
Proof.
  unfold args, rendered. rewrite args_loop. cbn [app].
  rewrite (fold_left_push (fun pattern =>
             buildOption (js "exclude") (Str pattern) (escapeFileArg p))).
  rewrite (fold_left_push (fun pattern =>
             buildOption (js "include") (Str pattern) (escapeFileArg p))).
  fold (exclude_token p) (include_token p).
  assert (Hs : (if Nat.ltb 0 (List.length (short_keys (entries (_options this))))
                then [js "-" ++ join [] (short_keys (entries (_options this)))]
                else [])
               = combined_token (entries (_options this))).
  { unfold combined_token. rewrite join_empty_separator.
    destruct (short_keys (entries (_options this))); reflexivity. }
  rewrite Hs.
  assert (Hl : forall (a l : list jsstring),
             (if Nat.ltb 0 (List.length l) then a ++ l else a) = a ++ l).
  { intros a l. destruct l; [rewrite app_nil_r|]; reflexivity. }
  rewrite Hl.
  repeat rewrite <- app_assoc.
  destruct (_sources this) as [|s0 srcs]; destruct (_destination this);
    cbn [truthy List.length Nat.ltb Nat.leb List.map destination_tokens];
    repeat rewrite <- app_assoc; repeat rewrite app_nil_r; reflexivity.
Qed.

(* ------------------------------------------------------------------ *)
(** ** The order of [Object.entries] *)

Section IndexOrder.

Variable i : N.
Variable e : jsstring * value.

Lemma insert_by_index_perm (l : list (N * (jsstring * value))) :
  Permutation (insert_by_index i e l) ((i, e) :: l).
Proof.
  induction l as [|[j e'] rest IH]; cbn [insert_by_index].
  - apply Permutation_refl.
  - destruct (N.leb i j).
    + apply Permutation_refl.
    + apply perm_trans with ((j, e') :: (i, e) :: rest).
      * apply perm_skip, IH.
      * apply perm_swap.
Qed.

Lemma insert_by_index_sorted (l : list (N * (jsstring * value))) :
  StronglySorted N.le (List.map fst l) ->
  StronglySorted N.le (List.map fst (insert_by_index i e l)).
Proof.
  induction l as [|[j e'] rest IH]; cbn [insert_by_index List.map fst].
  - intros _. constructor; constructor.
  - intros Hs. apply StronglySorted_inv in Hs. destruct Hs as [Hrest Hj].
    destruct (N.leb i j) eqn:Hij.
    + cbn [List.map fst]. apply N.leb_le in Hij.
      constructor.
      * constructor; assumption.
      * constructor; [exact Hij|].
        apply Forall_impl with (P := N.le j); [|exact Hj].
        intros k Hk. apply N.le_trans with j; assumption.
    + cbn [List.map fst]. apply N.leb_gt in Hij.
      constructor; [apply IH, Hrest|].
      apply Forall_forall. intros k Hk.
      apply in_map_iff in Hk. destruct Hk as [[k' e''] [Hfst Hin]].
      cbn [fst] in Hfst. subst k'.
      apply (Permutation_in _ (insert_by_index_perm rest)) in Hin.
      destruct Hin as [Heq|Hin].
      * injection Heq as <- _. apply N.lt_le_incl, Hij.
      * apply (proj1 (Forall_forall _ _) Hj).
        apply in_map_iff. exists (k, e''). split; [reflexivity|exact Hin].
Qed.

End IndexOrder.

Lemma index_entries_order (l : list (jsstring * value)) :
  Forall (fun ie => array_index (fst (snd ie)) = Some (fst ie))
         (index_entries l)
  /\ StronglySorted N.le (List.map fst (index_entries l))
  /\ Permutation (List.map snd (index_entries l))
                 (filter (fun e => is_array_index (fst e)) l).
Proof.
  induction l as [|e rest [IHk [IHs IHp]]]; cbn [index_entries filter].
  - repeat split; constructor.
  - unfold is_array_index at 1.
    destruct (array_index (fst e)) as [i|] eqn:Hi.
    + split; [|split].
      * apply Forall_forall. intros ie Hin.
        apply (Permutation_in _ (insert_by_index_perm i e _)) in Hin.
        destruct Hin as [<-|Hin]; [exact Hi|].
        exact (proj1 (Forall_forall _ _) IHk ie Hin).
      * apply insert_by_index_sorted, IHs.
      * apply perm_trans with (List.map snd ((i, e) :: index_entries rest)).
        -- apply Permutation_map, insert_by_index_perm.
        -- cbn [List.map snd]. apply perm_skip, IHp.
    + split; [|split]; assumption.
Qed.

(** [Object.entries] lists the array-index keys first, by ascending index,
    and the other keys behind them in insertion order. *)
Lemma entries_index_keys_first (o : obj) : index_keys_first o (entries o).
Proof.
  exists (index_entries (own o)).
  split; [reflexivity|]. apply index_entries_order.
Qed.

Lemma index_entries_none (l : list (jsstring * value)) :
  forallb (fun e => negb (is_array_index (fst e))) l = true ->
  index_entries l = [].
Proof.
  induction l as [|e rest IH]; [reflexivity|].
  cbn [forallb index_entries]. intros H.
  apply andb_prop in H. destruct H as [He Hrest].
  unfold is_array_index in He.
  destruct (array_index (fst e)); [discriminate|]. exact (IH Hrest).
Qed.

Lemma filter_all {A : Type} (f : A -> bool) (l : list A) :
  forallb f l = true -> filter f l = l.
Proof.
  induction l as [|x rest IH]; [reflexivity|].
  cbn [forallb filter]. intros H.
  apply andb_prop in H. destruct H as [Hx Hrest].
  rewrite Hx, (IH Hrest). reflexivity.
Qed.

(** Without array-index keys, [Object.entries] is the insertion order. *)
Lemma entries_without_index (o : obj) :
  no_index_key o = true -> entries o = own o.
Proof.
  unfold no_index_key, entries. intros H.
  rewrite (index_entries_none _ H), (filter_all _ _ H). reflexivity.
Qed.

Lemma buildOption_nonempty (name : string) (v : jsstring)
      (f : jsstring -> jsstring) :
  v <> [] ->
  Nat.eqb (List.length (js name)) 1 = false ->
  buildOption (js name) (Str v) f = js "--" ++ js name ++ js "=" ++ f v.
Proof.
  intros Hv Hlen. unfold buildOption. rewrite Hlen.
  destruct v as [|c v']; [congruence|].
  cbn [truthy String_]. rewrite <- app_assoc. reflexivity.
Qed.

(** C1 (amended).  For every instance, the token list of [args] is, in
    this order: the combined short-flag token if there is a short flag, the
    tokens of the other option entries, one exclude token per exclude
    pattern in the given order, one include token per include pattern in
    the given order, the escaped sources in the given order, and the
    escaped destination if it is not empty.  The option entries are taken
    in the order of [Object.entries]: the keys that are array indices
    first, by ascending index, then the other keys in insertion order;
    this is the insertion order whenever no option key is an array index.
    The token of a pattern that is not empty is [--exclude=] (or
    [--include=]) followed by the path-escaped pattern. *)
Theorem args_token_order :
  forall (p : platform) (this : Rsync),
    args p this
    = combined_token (entries (_options this))
      ++ separate_tokens (entries (_options this))
      ++ List.map (exclude_token p) (_excludes this)
      ++ List.map (include_token p) (_includes this)
      ++ List.map (escapeFileArg p) (_sources this)
      ++ destination_tokens p (_destination this)
    /\ index_keys_first (_options this) (entries (_options this))
    /\ (no_index_key (_options this) = true ->
        args p this = args_in_insertion_order p this)
    /\ (forall pattern : jsstring,
          pattern <> [] ->
          exclude_token p pattern = js "--exclude=" ++ escapeFileArg p pattern
          /\ include_token p pattern
             = js "--include=" ++ escapeFileArg p pattern).
Proof.
  intros p this. split; [|split; [|split]].
  - apply args_rendered.
  - apply entries_index_keys_first.
  - intros H. rewrite args_rendered. unfold args_in_insertion_order.
    rewrite (entries_without_index _ H). reflexivity.
  - intros pattern Hne. unfold exclude_token, include_token. split.
    + rewrite (buildOption_nonempty "exclude" pattern _ Hne) by reflexivity.
      reflexivity.
    + rewrite (buildOption_nonempty "include" pattern _ Hne) by reflexivity.
      reflexivity.
Qed.

Lemma args_token_order_witness :
  args Posix (build sample_filters)
  = args_in_insertion_order Posix (build sample_filters)
  /\ exclude_token Posix (js "build/*") = js "--exclude=build/*".
Proof.
  destruct (args_token_order Posix (build sample_filters))
    as [_ [_ [Hinsertion Hpattern]]].
  split.
  - apply Hinsertion. reflexivity.
  - apply (Hpattern (js "build/*")). discriminate.
Defined.

(** C1 as stated fails: with [shell: 'ssh'] and [set: { '4': '' }] the key
    [rsh] is inserted before the key [4], and the token of [4] comes out
    first. *)
Lemma args_insertion_order_counterexample :
  constructor (ArgObject sample_shell_then_digit)
  = Return (build sample_shell_then_digit)
  /\ List.map fst (own (_options (build sample_shell_then_digit)))
     = [js "rsh"; js "4"]
  /\ args Posix (build sample_shell_then_digit) = [js "-4"; js "--rsh=ssh"]
  /\ args_in_insertion_order Posix (build sample_shell_then_digit)
     = [js "--rsh=ssh"; js "-4"]
  /\ args Posix (build sample_shell_then_digit)
     <> args_in_insertion_order Posix (build sample_shell_then_digit).
Proof.
  repeat split; try reflexivity. vm_compute. discriminate.
Qed.

Lemma args_without_options (p : platform) (this : Rsync) :
  args p (without_options this)
  = List.map (exclude_token p) (_excludes this)
    ++ List.map (include_token p) (_includes this)
    ++ List.map (escapeFileArg p) (_sources this)
    ++ destination_tokens p (_destination this).
Proof. rewrite args_rendered. reflexivity. Qed.

Lemma combined_token_eq (es : list (jsstring * value)) :
  combined_token es
  = if existsb is_short_flag es
    then [js "-" ++ List.concat (List.map fst (filter is_short_flag es))]
    else [].
Proof.
  unfold combined_token, short_keys.
  induction es as [|e rest IH]; [reflexivity|].
  cbn [filter existsb]. destruct (is_short_flag e); [reflexivity|].
  exact IH.
Qed.

Lemma entry_tokens_separate (es : list (jsstring * value))
      (e : jsstring * value) :
  In e es -> is_short_flag e = false ->
  incl (entry_tokens e) (separate_tokens es).
Proof.
  intros Hin Hns tok Htok. unfold separate_tokens.
  apply in_flat_map. exists e. split; [|exact Htok].
  apply filter_In. split; [exact Hin|]. rewrite Hns. reflexivity.
Qed.

(** C2 (amended).  For every instance, the keys of one code unit whose
    value is [null] (or [undefined]) are concatenated, in the order of
    [Object.entries] (array-index keys first, by ascending index, then the
    other keys in insertion order), into one token that starts with a
    dash, which is the first token and is there only when such a key
    exists.  Every other
    entry renders apart from it: one token when its value is a string or
    [null], one token per element when its value is an array.  The order of
    [Object.entries] is the insertion order whenever no key is an array
    index. *)
Theorem short_flags_combined :
  forall (p : platform) (this : Rsync),
    let es := entries (_options this) in
    args p this
    = combined_token es ++ separate_tokens es ++ args p (without_options this)
    /\ combined_token es
       = (if existsb is_short_flag es
          then [js "-" ++ List.concat (List.map fst (filter is_short_flag es))]
          else [])
    /\ separate_tokens es
       = flat_map entry_tokens (filter (fun e => negb (is_short_flag e)) es)
    /\ (forall (key : jsstring) (x : scalar),
          entry_tokens (key, One x) = [buildOption key x escapeShellArg])
    /\ (forall (key : jsstring) (vals : list jsstring),
          entry_tokens (key, Many vals)
          = List.map (fun val => buildOption key (Str val) escapeShellArg) vals)
    /\ (forall e : jsstring * value,
          is_short_flag e
          = (Nat.eqb (List.length (fst e)) 1
             && match snd e with
                | One Null | One Undefined => true
                | _ => false
                end)%bool)
    /\ index_keys_first (_options this) es
    /\ (no_index_key (_options this) = true -> es = own (_options this)).
Proof.
  intros p this es.
  split; [|split; [|split; [|split; [|split; [|split; [|split]]]]]].
  - rewrite args_rendered, args_without_options. reflexivity.
  - apply combined_token_eq.
  - reflexivity.
  - reflexivity.
  - reflexivity.
  - intros [key [[| |s]|vals]]; reflexivity.
  - apply entries_index_keys_first.
  - apply entries_without_index.
Qed.

Lemma short_flags_combined_witness :
  entries (_options (build sample_filters))
  = own (_options (build sample_filters)).
Proof.
  apply (short_flags_combined Posix (build sample_filters)). reflexivity.
Defined.

(** C2 as stated fails: [flags: 'a4'] inserts the key [a] before the key
    [4], and the combined token is [-4a]. *)
Lemma short_flags_order_counterexample :
  constructor (ArgObject sample_flags_a4) = Return (build sample_flags_a4)
  /\ List.map fst (own (_options (build sample_flags_a4))) = [js "a"; js "4"]
  /\ args Posix (build sample_flags_a4) = [js "-4a"]
  /\ args_in_insertion_order Posix (build sample_flags_a4) = [js "-a4"]
  /\ args Posix (build sample_flags_a4) <> [js "-a4"].
Proof.
  repeat split; try reflexivity. vm_compute. discriminate.
Qed.

(** C6.  An option whose value is the empty string renders as the key
    behind its prefix, one dash for a key of one code unit and two dashes
    otherwise, with no separator and no value, as the same key without a
    value does in [buildOption]; in [args] it is a token of its own. *)
Theorem empty_string_value_renders_bare :
  forall (key : jsstring) (escapeArg : jsstring -> jsstring),
    buildOption key (Str []) escapeArg = option_prefix key ++ key
    /\ buildOption key (Str []) escapeArg = buildOption key Null escapeArg
    /\ (forall short long : list jsstring,
          args_entry (short, long) (key, One (Str []))
          = (short, long ++ [option_prefix key ++ key]))
    /\ (forall (p : platform) (this : Rsync),
          In (key, One (Str [])) (entries (_options this)) ->
          In (option_prefix key ++ key) (args p this)).
Proof.
  intros key escapeArg.
  assert (Hb : forall f, buildOption key (Str []) f = option_prefix key ++ key).
  { intros f. unfold buildOption, option_prefix. cbn [truthy].
    destruct (Nat.eqb (List.length key) 1); reflexivity. }
  split; [|split; [|split]].
  - apply Hb.
  - rewrite Hb. unfold buildOption, option_prefix. cbn [truthy].
    destruct (Nat.eqb (List.length key) 1); reflexivity.
  - intros short long. rewrite args_entry_eq.
    unfold is_short_flag, entry_tokens. cbn [fst snd noval].
    rewrite andb_false_r, Hb. reflexivity.
  - intros p this Hin. rewrite args_rendered. unfold rendered.
    apply in_or_app. right. apply in_or_app. left.
    apply (entry_tokens_separate _ (key, One (Str [])) Hin).
    + unfold is_short_flag. cbn [fst snd noval]. apply andb_false_r.
    + unfold entry_tokens. cbn [fst snd]. rewrite Hb. left. reflexivity.
Qed.

Lemma empty_string_value_renders_bare_witness :
  In (js "-4") (args Posix (build sample_shell_then_digit)).
Proof.
  destruct (empty_string_value_renders_bare (js "4") escapeShellArg)
    as [_ [_ [_ Hargs]]].
  apply (Hargs Posix (build sample_shell_then_digit)).
  left. reflexivity.
Defined.

(* ------------------------------------------------------------------ *)
(** ** The escaping functions *)

(** C3.  [escapeShellArg] returns a value without double quote, single
    quote, backtick, backslash, dollar and space as it is; any other value
    comes back between two double quotes, with a backslash put before each
    double quote, single quote, backtick, backslash and dollar in it, and
    with its spaces left as they are. *)
Theorem escapeShellArg_quotes_when_needed :
  forall arg : jsstring,
    escapeShellArg arg
    = (if existsb shell_trigger arg
       then [DQUOTE] ++ flat_map (escape_unit shell_special) arg ++ [DQUOTE]
       else arg)
    /\ (forall c : char16,
          shell_trigger c
          = (N.eqb c DQUOTE || N.eqb c SQUOTE || N.eqb c BACKTICK
             || N.eqb c BACKSLASH || N.eqb c DOLLAR || N.eqb c SPACE)%bool)
    /\ (forall c : char16,
          escape_unit shell_special c
          = if (N.eqb c DQUOTE || N.eqb c SQUOTE || N.eqb c BACKTICK
                || N.eqb c BACKSLASH || N.eqb c DOLLAR)%bool
            then [BACKSLASH; c] else [c])
    /\ escape_unit shell_special SPACE = [SPACE].
Proof.
  intros arg. split; [|split; [|split]].
  - apply escapeShellArg_eq.
  - intros c. unfold shell_trigger, one_of. cbn [existsb].
    destruct (N.eqb c DQUOTE), (N.eqb c SQUOTE), (N.eqb c BACKTICK),
      (N.eqb c BACKSLASH), (N.eqb c DOLLAR), (N.eqb c SPACE); reflexivity.
  - intros c. unfold escape_unit, shell_special, one_of. cbn [existsb].
    destruct (N.eqb c DQUOTE), (N.eqb c SQUOTE), (N.eqb c BACKTICK),
      (N.eqb c BACKSLASH), (N.eqb c DOLLAR); reflexivity.
  - reflexivity.
Qed.

Lemma class_file_eq (c : char16) :
  class_file c
  = (N.eqb c DQUOTE || N.eqb c SQUOTE || N.eqb c BACKTICK
     || N.eqb c BACKSLASH || N.eqb c DOLLAR || N.eqb c LPAREN
     || N.eqb c RPAREN || class_s c)%bool.
Proof.
  unfold class_file, one_of. cbn [existsb].
  destruct (N.eqb c DQUOTE), (N.eqb c SQUOTE), (N.eqb c BACKTICK),
    (N.eqb c BACKSLASH), (N.eqb c DOLLAR), (N.eqb c LPAREN),
    (N.eqb c RPAREN), (class_s c); reflexivity.
Qed.

(** C4 (amended).  On a host that is not Windows, and on Windows for a
    string without a backslash, [escapeFileArg] puts one backslash before
    each double quote, single quote, backtick, backslash, dollar,
    parenthesis and whitespace code unit, and adds no quotes.  On every
    host [some file.txt] gets one backslash before its space, and the two
    quotes of the quoted file name get one backslash each. *)
Theorem escapeFileArg_escapes_each :
  (forall (p : platform) (s : jsstring),
      is_win32 p = false \/ existsb is_backslash s = false ->
      escapeFileArg p s = flat_map (escape_unit class_file) s)
  /\ (forall c : char16,
        escape_unit class_file c
        = if (N.eqb c DQUOTE || N.eqb c SQUOTE || N.eqb c BACKTICK
              || N.eqb c BACKSLASH || N.eqb c DOLLAR || N.eqb c LPAREN
              || N.eqb c RPAREN || class_s c)%bool
          then [BACKSLASH; c] else [c])
  /\ (forall p : platform,
        escapeFileArg p (js "some file.txt") = js "some\ file.txt")
  /\ (forall p : platform,
        escapeFileArg p (js "a_quoted'filename" ++ [DQUOTE] ++ js ".txt")
        = js "a_quoted\'filename\" ++ [DQUOTE] ++ js ".txt").
Proof.
  split; [|split; [|split]].
  - intros p s H. rewrite escapeFileArg_eq.
    destruct H as [H|H]; rewrite H; [|rewrite andb_false_r]; reflexivity.
  - intros c. unfold escape_unit. rewrite class_file_eq. reflexivity.
  - intros []; vm_compute; reflexivity.
  - intros []; vm_compute; reflexivity.
Qed.

Lemma escapeFileArg_escapes_each_witness :
  escapeFileArg Posix (js "a (file) with\parantheses.txt")
  = js "a\ \(file\)\ with\\parantheses.txt".
Proof.
  destruct escapeFileArg_escapes_each as [Heach _].
  rewrite (Heach Posix (js "a (file) with\parantheses.txt")).
  - reflexivity.
  - left. reflexivity.
Defined.

(** C4 as stated fails on Windows: the backslash of [a\b] gets no
    backslash before it, it becomes a slash. *)
Lemma escapeFileArg_backslash_counterexample :
  escapeFileArg Win32 (js "a\b") = js "a/b"
  /\ flat_map (escape_unit class_file) (js "a\b") = js "a\\b"
  /\ escapeFileArg Win32 (js "a\b")
     <> flat_map (escape_unit class_file) (js "a\b").
Proof.
  split; [|split]; try (vm_compute; reflexivity).
  vm_compute. discriminate.
Qed.

(** C5 (amended).  On Windows [escapeFileArg] converts exactly the strings
    that hold a backslash, which are the strings whose escaped form holds a
    doubled backslash, whether they begin with a drive or not: each
    backslash of the string becomes a slash, the other escaped code units
    keep their backslash, and then a leading letter, colon and slash become
    one slash.  On another host nothing is converted.  The drive-rooted
    path of the test renders as the POSIX path. *)
Theorem escapeFileArg_windows_conversion :
  (forall (p : platform) (s : jsstring),
      escapeFileArg p s
      = if (is_win32 p && existsb is_backslash s)%bool
        then strip_drive (flat_map slash_unit s)
        else flat_map (escape_unit class_file) s)
  /\ (forall s : jsstring,
        test re_double_backslash (flat_map (escape_unit class_file) s)
        = existsb is_backslash s)
  /\ (forall c : char16,
        slash_unit c
        = if N.eqb BACKSLASH c then [SLASH] else escape_unit class_file c)
  /\ (forall l : jsstring,
        strip_drive l
        = match l with
          | x :: c :: sl :: rest =>
              if (class_AZ_i x && N.eqb COLON c && N.eqb SLASH sl)%bool
              then SLASH :: rest else l
          | _ => l
          end)
  /\ escapeFileArg Win32 (js "C:\home\username\develop\readme.txt")
     = js "/home/username/develop/readme.txt".
Proof.
  split; [|split; [|split; [|split]]].
  - apply escapeFileArg_eq.
  - intros s. unfold test. rewrite search_double_backslash.
    apply file_escape_pair.
  - reflexivity.
  - reflexivity.
  - vm_compute. reflexivity.
Qed.

(** C5 as stated fails: [foo\bar] does not begin with a drive, and on
    Windows it is converted all the same. *)
Lemma escapeFileArg_no_drive_counterexample :
  drive_rooted (js "foo\bar") = false
  /\ escapeFileArg Win32 (js "foo\bar") = js "foo/bar"
  /\ escapeFileArg Win32 (js "foo\bar")
     <> flat_map (escape_unit class_file) (js "foo\bar").
Proof.
  split; [|split]; try (vm_compute; reflexivity).
  vm_compute. discriminate.
Qed.

(* ------------------------------------------------------------------ *)
(** ** The constructors *)

(** C7.  The guard of the constructor throws its error, before anything is
    read from the input, for every input whose [typeof] is not [object]
    (but for [undefined], which the default replaces by an empty object)
    and for every array.  [null] is not an object either, and it is not
    met by the guard: [typeof null] is [object], and the constructor throws
    the engine's [TypeError] at the first property it reads. *)
Theorem constructor_guard :
  (forall x : js_arg,
      throws_must_be_an_Object (constructor x)
      = match x with
        | ArgUndefined | ArgNull | ArgObject _ => false
        | ArgBoolean _ | ArgNumber _ | ArgBigInt _ | ArgString _
        | ArgSymbol | ArgFunction | ArgArray _ => true
        end)
  /\ constructor (ArgString (js "string")) = Throw must_be_an_Object
  /\ constructor (ArgArray []) = Throw must_be_an_Object
  /\ constructor ArgNull = Throw TypeError
  /\ Js.constructor ArgNull = Throw TypeError
  /\ throws_must_be_an_Object (constructor ArgNull) = false.
Proof.
  split; [|repeat split].
  intros []; reflexivity.
Qed.

Lemma orb_shadow (a b : bool) : implb a b = true -> (b || a)%bool = b.
Proof. destruct a, b; cbn; congruence. Qed.

(** With the one-letter fields shadowed, the two variants run the same
    steps after the [flags] block. *)
Lemma processOptions_rest_agree (options : RsyncOptions) (this : Rsync) :
  aliases_shadowed options = true ->
  Js._processOptions_rest options this
  = _processOptions
      {| source := None; destination := None;
         executable := executable options;
         executableShell := executableShell options;
         flags := None; shell := shell options; chmod := chmod options;
         exclude := exclude options; include := include options;
         set := set options; enabled := enabled options |} this.
Proof.
  intros H. unfold aliases_shadowed, aliases in H. cbn [forallb fst snd] in H.
  repeat (apply andb_prop in H; let Hx := fresh "Hx" in destruct H as [Hx H]).
  unfold Js._processOptions_rest, _processOptions.
  cbn [source destination flags shell chmod exclude include set enabled
       truthy_sa truthy_string when].
  repeat match goal with
         | Hx : implb _ _ = true |- _ =>
             rewrite (orb_shadow _ _ Hx); clear Hx
         end.
  reflexivity.
Qed.

(** Where the JavaScript variant returns, it has built the instance that
    the TypeScript variant builds. *)
Lemma processOptions_agree (options : RsyncOptions) (this result : Rsync) :
  aliases_shadowed options = true ->
  Js._processOptions options this = Return result ->
  result = _processOptions options this.
Proof.
  intros Hsh. unfold Js._processOptions.
  destruct (flags options) as [[s|xs]|] eqn:Hfl.
  - destruct s as [|c s']; cbn [truthy_sa]; intros H; injection H as <-;
      rewrite (processOptions_rest_agree _ _ Hsh);
      unfold _processOptions; rewrite Hfl; reflexivity.
  - cbn [truthy_sa]. discriminate.
  - cbn [truthy_sa]. intros H; injection H as <-.
    rewrite (processOptions_rest_agree _ _ Hsh).
    unfold _processOptions; rewrite Hfl; reflexivity.
Qed.

(** On an array without holes both loops visit every element in order. *)
Lemma for_of_dense (S : Type) (xs : list jsstring) (body : S -> scalar -> S)
      (s : S) :
  for_of (dense xs) body s = fold_left (fun s x => body s (Str x)) xs s.
Proof.
  unfold for_of, dense. revert s.
  induction xs as [|x rest IH]; intros s; [reflexivity|].
  cbn [List.map fold_left slot_value]. apply IH.
Qed.

Lemma forEach_dense (S : Type) (xs : list jsstring)
      (callback : S -> scalar -> S) (s : S) :
  forEach (dense xs) callback s
  = fold_left (fun s x => callback s (Str x)) xs s.
Proof.
  unfold forEach, dense. revert s.
  induction xs as [|x rest IH]; intros s; [reflexivity|].
  cbn [List.map fold_left]. apply IH.
Qed.

Lemma array_tokens_dense (key : jsstring) (vals : list jsstring)
      (long : list jsstring) :
  array_tokens key (dense vals) long = Js.array_tokens key (dense vals) long.
Proof.
  unfold array_tokens, Js.array_tokens.
  rewrite for_of_dense, forEach_dense. reflexivity.
Qed.

(** The loop of the TypeScript [args] over an array value is [for...of]
    on an array without holes. *)
Lemma args_entry_array (key : jsstring) (vals : list jsstring)
      (short long : list jsstring) :
  args_entry (short, long) (key, Many vals)
  = (short, array_tokens key (dense vals) long).
Proof.
  unfold args_entry, array_tokens. cbn [noval]. rewrite andb_false_r.
  rewrite for_of_dense. reflexivity.
Qed.

Lemma js_args_entry (acc : list jsstring * list jsstring)
      (e : jsstring * value) :
  Js.args_entry acc e = args_entry acc e.
Proof.
  destruct acc as [short long], e as [key [v|vals]].
  - reflexivity.
  - rewrite args_entry_array. unfold Js.args_entry. cbn [noval].
    rewrite andb_false_r, array_tokens_dense. reflexivity.
Qed.

Lemma fold_left_ext (A B : Type) (f g : A -> B -> A) (l : list B) (a : A) :
  (forall x y, f x y = g x y) -> fold_left f l a = fold_left g l a.
Proof.
  intros H. revert a. induction l as [|y rest IH]; intros a; [reflexivity|].
  cbn [fold_left]. rewrite H. apply IH.
Qed.

(** On one instance, whose arrays have no holes, the [args] and the
    [command] of the JavaScript variant give what those of the TypeScript
    variant give. *)
Lemma js_args (p : platform) (this : Rsync) : Js.args p this = args p this.
Proof.
  unfold Js.args, args.
  rewrite (fold_left_ext _ _ Js.args_entry args_entry _ _ js_args_entry).
  destruct (fold_left args_entry (entries (_options this)) ([], []))
    as [short long].
  rewrite !forEach_dense. reflexivity.
Qed.

Lemma js_command (p : platform) (this : Rsync) :
  Js.command p this = command p this.
Proof. unfold Js.command, command. rewrite js_args. reflexivity. Qed.

(** C10 (amended).  For every configuration object in which no one-letter
    field ([a], [z], [r], ...) is truthy unless the field it stands for is
    truthy too, whose arrays have no holes, and which both constructors
    accept, the [args] of the TypeScript variant on its instance gives the
    token list that the [args] of the JavaScript variant gives on its
    instance, and the two [command] give the same string.  The loops over
    an array value, [for...of] in one variant and [forEach] in the other,
    give the same tokens on an array without holes. *)
Theorem variants_agree :
  forall (options : RsyncOptions) (p : platform) (ts_this js_this : Rsync),
    aliases_shadowed options = true ->
    constructor (ArgObject options) = Return ts_this ->
    Js.constructor (ArgObject options) = Return js_this ->
    args p ts_this = Js.args p js_this
    /\ command p ts_this = Js.command p js_this
    /\ (forall (key : jsstring) (vals short long : list jsstring),
          args_entry (short, long) (key, Many vals)
          = (short, array_tokens key (dense vals) long)
          /\ Js.args_entry (short, long) (key, Many vals)
             = (short, Js.array_tokens key (dense vals) long)
          /\ array_tokens key (dense vals) long
             = Js.array_tokens key (dense vals) long).
Proof.
  intros options p ts_this js_this Hsh Hts Hjs.
  cbn in Hts. injection Hts as <-.
  cbn [Js.constructor typeof is_object_type Array_isArray negb orb] in Hjs.
  rewrite (processOptions_agree _ _ _ Hsh Hjs).
  split; [|split].
  - rewrite js_args. reflexivity.
  - rewrite js_command. reflexivity.
  - intros key vals short long. split; [|split].
    + apply args_entry_array.
    + unfold Js.args_entry. cbn [noval]. rewrite andb_false_r. reflexivity.
    + apply array_tokens_dense.
Qed.

Lemma variants_agree_witness :
  args Win32 (build sample_filters) = Js.args Win32 (build_js sample_filters)
  /\ command Win32 (build sample_filters)
     = Js.command Win32 (build_js sample_filters).
Proof.
  destruct (variants_agree sample_filters Win32
              (build sample_filters) (build_js sample_filters))
    as [Hargs [Hcommand _]]; try reflexivity.
  split; [exact Hargs|exact Hcommand].
Defined.

(** C10 as stated fails: both constructors accept [{ a: true }]; the
    JavaScript variant reads the field, the TypeScript variant does not.
    It fails for an array with a hole as well: [for...of] renders the hole
    as a bare option, [forEach] skips it. *)
Lemma variants_alias_counterexample :
  constructor (ArgObject sample_alias_a) = Return (build sample_alias_a)
  /\ Js.constructor (ArgObject sample_alias_a)
     = Return (build_js sample_alias_a)
  /\ args Posix (build sample_alias_a) = []
  /\ Js.args Posix (build_js sample_alias_a) = [js "-a"]
  /\ command Posix (build sample_alias_a) = js "rsync "
  /\ Js.command Posix (build_js sample_alias_a) = js "rsync -a"
  /\ args Posix (build sample_alias_a)
     <> Js.args Posix (build_js sample_alias_a)
  /\ array_tokens (js "chmod") [None] [] = [js "--chmod"]
  /\ Js.array_tokens (js "chmod") [None] [] = [].
Proof.
  repeat split; try reflexivity. vm_compute. discriminate.
Qed.

(* ------------------------------------------------------------------ *)
(** ** The completion of [execute] *)

Section Completion.

Import Execute.

Variable E : Type.
Variable p : platform.
Variable this : Rsync.

Lemma handle_settled (pr : promise E) (n : notification E) :
  is_pending pr = false -> handle p this pr n = pr.
Proof.
  destruct pr as [|r|rej]; [discriminate| |]; intros _;
    destruct n as [c|e]; unfold handle, on_close, on_error;
    try destruct (not_zero c); reflexivity.
Qed.

Lemma run_settled (ns : list (notification E)) (pr : promise E) :
  is_pending pr = false -> fold_left (handle p this) ns pr = pr.
Proof.
  intros H. induction ns as [|n rest IH]; [reflexivity|].
  cbn [fold_left]. rewrite (handle_settled _ n H). exact IH.
Qed.

Lemma settlements_settled (ns : list (notification E)) (pr : promise E) :
  is_pending pr = false -> settlements p this pr ns = 0.
Proof.
  intros H. induction ns as [|n rest IH]; [reflexivity|].
  cbn [settlements]. rewrite (handle_settled _ n H), H. exact IH.
Qed.

Lemma first_settles (n : notification E) :
  is_pending (handle p this Pending n) = false.
Proof.
  destruct n as [c|e]; unfold handle, on_close, on_error; [|reflexivity].
  destruct (not_zero c); reflexivity.
Qed.

Lemma execute_first (n : notification E) (rest : list (notification E)) :
  execute p this (n :: rest) = handle p this Pending n.
Proof.
  unfold execute. cbn [fold_left]. apply run_settled, first_settles.
Qed.

End Completion.

(** C8.  When the child process closes with exit code 0, the promise of
    [execute] is fulfilled with code 0 and the command string; when it
    closes with an exit code that is not 0, the promise is rejected with an
    error that carries this code, the command string, and a message that
    ends with the code. *)
Theorem execute_exit_code :
  forall (E : Type) (p : platform) (this : Rsync)
         (rest : list (Execute.notification E)),
    Execute.execute p this (Execute.Close (Some 0%Z) :: rest)
    = Execute.Fulfilled
        {| Execute.code := 0; Execute.cmd := command p this |}
    /\ (forall N : Z,
          N <> 0%Z ->
          Execute.execute p this (Execute.Close (Some N) :: rest)
          = Execute.Rejected
              (Execute.ExitError
                 {| Execute.message :=
                      js "rsync exited with code "
                      ++ js (NilZero.string_of_int (Z.to_int N));
                    Execute.error_code := N;
                    Execute.error_cmd := command p this |})).
Proof.
  intros E p this rest. split.
  - rewrite execute_first. reflexivity.
  - intros N HN. rewrite execute_first.
    unfold Execute.handle, Execute.on_close.
    assert (Hnz : Execute.not_zero (Some N) = true).
    { destruct N; [congruence|reflexivity|reflexivity]. }
    rewrite Hnz. reflexivity.
Qed.

Lemma execute_exit_code_witness :
  Execute.execute Posix (build sample_filters)
    (Execute.Close (Some 23%Z) :: [Execute.Failure tt])
  = Execute.Rejected
      (Execute.ExitError
         {| Execute.message := js "rsync exited with code 23";
            Execute.error_code := 23;
            Execute.error_cmd := command Posix (build sample_filters) |}).
Proof.
  apply (execute_exit_code unit Posix (build sample_filters)
           [Execute.Failure tt]).
  discriminate.
Defined.

(** C9.  Whatever notifications arrive after it, and in whatever order and
    number, the first notification of a call settles its promise, the
    promise settles once, and a promise settled by one kind of
    notification is not changed by the other kind. *)
Theorem execute_settles_once :
  forall (E : Type) (p : platform) (this : Rsync)
         (first : Execute.notification E)
         (rest : list (Execute.notification E)),
    Execute.execute p this (first :: rest)
    = Execute.handle p this Execute.Pending first
    /\ Execute.is_pending (Execute.execute p this (first :: rest)) = false
    /\ Execute.settlements p this Execute.Pending (first :: rest) = 1
    /\ (forall (r : Execute.RsyncResult) (n : Execute.notification E),
          Execute.handle p this (Execute.Fulfilled r) n = Execute.Fulfilled r)
    /\ (forall (e : Execute.rejection E) (n : Execute.notification E),
          Execute.handle p this (Execute.Rejected e) n = Execute.Rejected e).
Proof.
  intros E p this first rest.
  split; [|split; [|split; [|split]]].
  - apply execute_first.
  - rewrite execute_first. apply first_settles.
  - cbn [Execute.settlements]. rewrite first_settles.
    rewrite settlements_settled by apply first_settles. reflexivity.
  - intros r n. apply handle_settled. reflexivity.
  - intros e n. apply handle_settled. reflexivity.
Qed.

(* ------------------------------------------------------------------ *)
(** ** More on the escaping functions *)

Section Unescape.

Variable class : char16 -> bool.
Hypothesis class_backslash : class BACKSLASH = true.

Lemma outside_class_not_backslash (c : char16) :
  class c = false -> is_backslash c = false.
Proof.
  intros Hc. destruct (is_backslash c) eqn:Hb; [|reflexivity].
  apply N.eqb_eq in Hb. subst c. congruence.
Qed.

(** Unescaping undoes the escaping of any class that holds the backslash. *)
Lemma unescape_escaped (s t : jsstring) :
  unescape (flat_map (escape_unit class) s ++ t) = s ++ unescape t.
Proof.
  induction s as [|c s' IH]; [reflexivity|].
  cbn [flat_map]. unfold escape_unit at 1.
  destruct (class c) eqn:Hc.
  - change (([BACKSLASH; c] ++ flat_map (escape_unit class) s') ++ t)
      with (BACKSLASH :: c :: (flat_map (escape_unit class) s' ++ t)).
    change (unescape (BACKSLASH :: c :: (flat_map (escape_unit class) s' ++ t)))
      with (c :: unescape (flat_map (escape_unit class) s' ++ t)).
    rewrite IH. reflexivity.
  - change (([c] ++ flat_map (escape_unit class) s') ++ t)
      with (c :: (flat_map (escape_unit class) s' ++ t)).
    cbn [unescape]. rewrite (outside_class_not_backslash _ Hc), IH.
    reflexivity.
Qed.

End Unescape.

Lemma escape_length (class : char16 -> bool) (s : jsstring) :
  List.length (flat_map (escape_unit class) s)
  = List.length s + List.length (filter class s).
Proof.
  induction s as [|c s' IH]; [reflexivity|].
  cbn [flat_map filter]. rewrite length_app. unfold escape_unit at 1.
  destruct (class c); cbn [List.length]; rewrite IH; lia.
Qed.

Lemma filter_nil_existsb (A : Type) (f : A -> bool) (l : list A) :
  filter f l = [] -> existsb f l = false.
Proof.
  induction l as [|x rest IH]; [reflexivity|].
  cbn [filter existsb]. destruct (f x); [discriminate|]. exact IH.
Qed.

Lemma escape_nothing (class : char16 -> bool) (s : jsstring) :
  existsb class s = false -> flat_map (escape_unit class) s = s.
Proof.
  induction s as [|c s' IH]; [reflexivity|].
  cbn [existsb flat_map]. unfold escape_unit at 1.
  destruct (class c); [discriminate|]. cbn [orb]. intros H.
  rewrite (IH H). reflexivity.
Qed.

Lemma shell_trigger_special (c : char16) :
  shell_trigger c = false -> shell_special c = false.
Proof.
  unfold shell_trigger, shell_special, one_of. cbn [existsb].
  destruct (N.eqb c DQUOTE), (N.eqb c SQUOTE), (N.eqb c BACKTICK),
    (N.eqb c BACKSLASH), (N.eqb c DOLLAR); cbn; congruence.
Qed.

Lemma escapeShellArg_unquote (arg : jsstring) :
  shell_unquote (escapeShellArg arg) = arg.
Proof.
  rewrite escapeShellArg_eq.
  destruct (existsb shell_trigger arg) eqn:Htr.
  - change ([DQUOTE] ++ flat_map (escape_unit shell_special) arg ++ [DQUOTE])
      with (DQUOTE :: (flat_map (escape_unit shell_special) arg ++ [DQUOTE])).
    unfold shell_unquote. rewrite N.eqb_refl.
    rewrite unescape_escaped by reflexivity.
    change (unescape [DQUOTE]) with [DQUOTE].
    apply removelast_last.
  - destruct arg as [|c rest]; [reflexivity|].
    unfold shell_unquote.
    cbn [existsb] in Htr. apply orb_false_elim in Htr.
    destruct Htr as [Hc _].
    destruct (N.eqb c DQUOTE) eqn:Hq; [|reflexivity].
    apply N.eqb_eq in Hq. subst c. discriminate Hc.
Qed.

Lemma escapeShellArg_injective (a b : jsstring) :
  escapeShellArg a = escapeShellArg b -> a = b.
Proof.
  intros H.
  rewrite <- (escapeShellArg_unquote a), <- (escapeShellArg_unquote b), H.
  reflexivity.
Qed.

(** X1.  Reading the output of [escapeShellArg] back gives its argument,
    so two different values never render as the same text. *)
Theorem escapeShellArg_round_trip :
  (forall arg : jsstring, shell_unquote (escapeShellArg arg) = arg)
  /\ (forall a b : jsstring, escapeShellArg a = escapeShellArg b -> a = b).
Proof.
  split; [exact escapeShellArg_unquote|exact escapeShellArg_injective].
Qed.

Lemma escapeShellArg_round_trip_witness :
  js "ssh -i key" = js "ssh" ++ js " -i key".
Proof.
  apply (proj2 escapeShellArg_round_trip
           (js "ssh -i key") (js "ssh" ++ js " -i key")).
  reflexivity.
Defined.

Lemma escapeFileArg_posix (s : jsstring) :
  escapeFileArg Posix s = flat_map (escape_unit class_file) s.
Proof. rewrite escapeFileArg_eq. reflexivity. Qed.

Lemma escapeFileArg_unescape (s : jsstring) :
  unescape (escapeFileArg Posix s) = s.
Proof.
  rewrite escapeFileArg_posix.
  rewrite <- (app_nil_r (flat_map (escape_unit class_file) s)).
  rewrite unescape_escaped by reflexivity. apply app_nil_r.
Qed.

Lemma escapeFileArg_posix_injective (a b : jsstring) :
  escapeFileArg Posix a = escapeFileArg Posix b -> a = b.
Proof.
  intros H.
  rewrite <- (escapeFileArg_unescape a), <- (escapeFileArg_unescape b), H.
  reflexivity.
Qed.

(** X2.  On a host that is not Windows, reading the output of
    [escapeFileArg] back, each backslash quoting the code unit behind it,
    gives the file name, so two different names never render as the same
    text. *)
Theorem escapeFileArg_posix_round_trip :
  (forall s : jsstring, unescape (escapeFileArg Posix s) = s)
  /\ (forall a b : jsstring,
        escapeFileArg Posix a = escapeFileArg Posix b -> a = b).
Proof.
  split; [exact escapeFileArg_unescape|exact escapeFileArg_posix_injective].
Qed.

Lemma escapeFileArg_posix_round_trip_witness :
  js "some file.txt" = js "some " ++ js "file.txt".
Proof.
  apply (proj2 escapeFileArg_posix_round_trip
           (js "some file.txt") (js "some " ++ js "file.txt")).
  reflexivity.
Defined.

Lemma no_special_no_backslash (s : jsstring) :
  existsb class_file s = false -> existsb is_backslash s = false.
Proof.
  induction s as [|c s' IH]; [reflexivity|].
  cbn [existsb]. intros H. apply orb_false_elim in H. destruct H as [Hc Hs].
  rewrite (not_class_file_not_backslash _ Hc), (IH Hs). reflexivity.
Qed.

(** X3.  On every host [escapeFileArg] returns a name without double
    quote, single quote, backtick, backslash, dollar, parenthesis and
    whitespace as it is; on a host that is not Windows these are the only
    names it returns unchanged, and the output is longer than the name by
    the number of such code units. *)
Theorem escapeFileArg_plain_names :
  (forall (p : platform) (s : jsstring),
      existsb class_file s = false -> escapeFileArg p s = s)
  /\ (forall s : jsstring,
        escapeFileArg Posix s = s -> existsb class_file s = false)
  /\ (forall s : jsstring,
        List.length (escapeFileArg Posix s)
        = List.length s + List.length (filter class_file s)).
Proof.
  split; [|split].
  - intros p s H. rewrite escapeFileArg_eq.
    rewrite (no_special_no_backslash _ H), andb_false_r.
    apply escape_nothing, H.
  - intros s H. apply filter_nil_existsb.
    apply (f_equal (@List.length _)) in H.
    rewrite escapeFileArg_posix, escape_length in H.
    destruct (filter class_file s) as [|x xs]; [reflexivity|].
    cbn [List.length] in H. lia.
  - intros s. rewrite escapeFileArg_posix. apply escape_length.
Qed.

Lemma escapeFileArg_plain_names_witness :
  escapeFileArg Win32 (js "some_file.txt") = js "some_file.txt"
  /\ existsb class_file (js "path_a/") = false.
Proof.
  destruct escapeFileArg_plain_names as [Hplain [Honly _]].
  split.
  - apply (Hplain Win32 (js "some_file.txt")). reflexivity.
  - apply (Honly (js "path_a/")). reflexivity.
Defined.

Lemma has_backslash_pair_tail (x : char16) (l : jsstring) :
  has_backslash_pair (x :: l) = false -> has_backslash_pair l = false.
Proof.
  destruct l as [|y l']; [reflexivity|].
  rewrite has_backslash_pair_cons. intros H.
  apply orb_false_elim in H. apply H.
Qed.

Lemma slashed_no_pair (s : jsstring) :
  has_backslash_pair (flat_map slash_unit s) = false.
Proof.
  induction s as [|c s' IH]; [reflexivity|].
  cbn [flat_map]. unfold slash_unit at 1, escape_unit.
  destruct (is_backslash c) eqn:Hb.
  - cbn [app]. rewrite has_backslash_pair_skip by reflexivity. exact IH.
  - destruct (class_file c).
    + change ([BACKSLASH; c] ++ flat_map slash_unit s')
        with (BACKSLASH :: c :: flat_map slash_unit s').
      rewrite has_backslash_pair_cons, Hb, andb_false_r. cbn [orb].
      rewrite has_backslash_pair_skip by exact Hb. exact IH.
    + cbn [app]. rewrite has_backslash_pair_skip by exact Hb. exact IH.
Qed.

Lemma strip_drive_no_pair (l : jsstring) :
  has_backslash_pair l = false -> has_backslash_pair (strip_drive l) = false.
Proof.
  intros H. unfold strip_drive.
  destruct l as [|x [|c [|sl rest]]]; try exact H.
  destruct (class_AZ_i x && (COLON =? c)%N && (SLASH =? sl)%N)%bool;
    [|exact H].
  rewrite has_backslash_pair_skip by reflexivity.
  apply has_backslash_pair_tail in H. apply has_backslash_pair_tail in H.
  apply has_backslash_pair_tail in H. exact H.
Qed.

(** X4.  The output of [escapeFileArg] holds a doubled backslash exactly
    when the host is not Windows and the name holds a backslash: on
    Windows no doubled backslash is ever left. *)
Theorem escapeFileArg_doubled_backslash :
  forall (p : platform) (s : jsstring),
    has_backslash_pair (escapeFileArg p s)
    = (negb (is_win32 p) && existsb is_backslash s)%bool.
Proof.
  intros p s. rewrite escapeFileArg_eq.
  destruct p; cbn [is_win32 negb andb].
  - destruct (existsb is_backslash s) eqn:Hb.
    + apply strip_drive_no_pair, slashed_no_pair.
    + rewrite file_escape_pair. exact Hb.
  - apply file_escape_pair.
Qed.

Lemma escapeFileArg_host_free (s : jsstring) :
  existsb is_backslash s = false ->
  escapeFileArg Win32 s = escapeFileArg Posix s.
Proof.
  intros H. rewrite !escapeFileArg_eq, H, !andb_false_r. reflexivity.
Qed.

Lemma buildOption_host_free (name v : jsstring) :
  existsb is_backslash v = false ->
  buildOption name (Str v) (escapeFileArg Win32)
  = buildOption name (Str v) (escapeFileArg Posix).
Proof.
  intros H. unfold buildOption. cbn [String_].
  rewrite (escapeFileArg_host_free _ H). reflexivity.
Qed.

Lemma map_host_free (f g : jsstring -> jsstring) (l : list jsstring) :
  (forall s, existsb is_backslash s = false -> f s = g s) ->
  forallb (fun s => negb (existsb is_backslash s)) l = true ->
  List.map f l = List.map g l.
Proof.
  intros Hfg Hl. apply map_ext_in. intros s Hin. apply Hfg.
  apply (proj1 (forallb_forall _ _) Hl) in Hin.
  apply negb_true_iff in Hin. exact Hin.
Qed.

(** X5.  For an instance none of whose sources, destination and patterns
    holds a backslash, [args] and [command] give the same on Windows as on
    any other host. *)
Theorem args_host_free :
  forall this : Rsync,
    forallb (fun s => negb (existsb is_backslash s)) (paths_of this) = true ->
    args Win32 this = args Posix this
    /\ command Win32 this = command Posix this.
Proof.
  intros this H.
  assert (Hargs : args Win32 this = args Posix this).
  { unfold paths_of in H. rewrite !forallb_app in H.
    apply andb_prop in H. destruct H as [Hex H].
    apply andb_prop in H. destruct H as [Hin H].
    apply andb_prop in H. destruct H as [Hsrc Hdst].
    cbn [forallb] in Hdst. rewrite andb_true_r in Hdst.
    apply negb_true_iff in Hdst.
    rewrite !args_rendered. unfold rendered.
    rewrite (map_host_free (exclude_token Win32) (exclude_token Posix)
               (_excludes this)
               (fun s Hs => buildOption_host_free (js "exclude") s Hs) Hex).
    rewrite (map_host_free (include_token Win32) (include_token Posix)
               (_includes this)
               (fun s Hs => buildOption_host_free (js "include") s Hs) Hin).
    rewrite (map_host_free (escapeFileArg Win32) (escapeFileArg Posix)
               (_sources this) escapeFileArg_host_free Hsrc).
    unfold destination_tokens.
    rewrite (escapeFileArg_host_free _ Hdst). reflexivity. }
  split; [exact Hargs|]. unfold command. rewrite Hargs. reflexivity.
Qed.

Lemma args_host_free_witness :
  args Win32 (build sample_filters) = args Posix (build sample_filters)
  /\ command Win32 (build sample_filters)
     = command Posix (build sample_filters).
Proof.
  apply (args_host_free (build sample_filters)). reflexivity.
Defined.

(* ------------------------------------------------------------------ *)
(** ** The constructor: what the steps of [_processOptions] touch *)


Lemma set_option_options_only (k : jsstring) (v : value) :
  options_only (set_option k v).
Proof. intros this. reflexivity. Qed.

Lemma flag_option_options_only (k : string) : options_only (flag_option k).
Proof. intros this. reflexivity. Qed.

Lemma set_flags_options_only (fl : list jsstring) : options_only (set_flags fl).
Proof.
  unfold set_flags. induction fl as [|k rest IH]; intros this; [reflexivity|].
  cbn [fold_left]. rewrite IH. reflexivity.
Qed.

Lemma merge_set_options_only (s : option obj) : options_only (merge_set s).
Proof.
  destruct s as [o|]; [|intros this; reflexivity].
  unfold merge_set. induction (entries o) as [|e rest IH]; intros this;
    [reflexivity|].
  cbn [fold_left]. rewrite IH. reflexivity.
Qed.

Lemma when_options_only (b : bool) (f : Rsync -> Rsync) :
  options_only f -> options_only (when b f).
Proof. intros Hf this. destruct b; [apply Hf|reflexivity]. Qed.

Lemma when_without_options (b : bool) (f : Rsync -> Rsync) (this : Rsync) :
  options_only f -> without_options (when b f this) = without_options this.
Proof. intros Hf. apply (when_options_only b f Hf). Qed.


Lemma with_sources_paths_only (xs : list jsstring) :
  paths_only (with_sources xs).
Proof. intros this. reflexivity. Qed.

Lemma with_destination_paths_only (x : jsstring) :
  paths_only (with_destination x).
Proof. intros this. reflexivity. Qed.

Lemma push_excludes_paths_only (xs : list jsstring) :
  paths_only (push_excludes xs).
Proof. intros this. reflexivity. Qed.

Lemma push_includes_paths_only (xs : list jsstring) :
  paths_only (push_includes xs).
Proof. intros this. reflexivity. Qed.

Lemma when_commutes (b : bool) (g : Rsync -> Rsync) (this : Rsync) :
  paths_only g -> without_options (when b g this) = when b g (without_options this).
Proof. intros Hg. destruct b; [apply Hg|reflexivity]. Qed.

Create HintDb rsync_frame.
#[local] Hint Resolve set_option_options_only flag_option_options_only
  set_flags_options_only merge_set_options_only
  with_sources_paths_only with_destination_paths_only
  push_excludes_paths_only push_includes_paths_only : rsync_frame.

(** Apart from [_options], the instance depends on the path and pattern
    fields of the configuration only. *)
Lemma processOptions_without_options (options : RsyncOptions) (this : Rsync) :
  without_options (_processOptions options this)
  = path_steps options (without_options this).
Proof.
  unfold _processOptions, path_steps.
  rewrite (merge_set_options_only (set options)).
  rewrite !when_commutes by auto with rsync_frame.
  repeat rewrite when_without_options by auto with rsync_frame.
  rewrite !when_commutes by auto with rsync_frame.
  reflexivity.
Qed.

(** A step that leaves [_options] as it is. *)
Lemma options_of_path_step (b : bool) (g : Rsync -> Rsync) (this : Rsync) :
  (forall t, _options (g t) = _options t) ->
  _options (when b g this) = _options this.
Proof. intros Hg. destruct b; [apply Hg|reflexivity]. Qed.

Lemma options_of_set_option (b : bool) (k : jsstring) (v : value)
      (this : Rsync) :
  _options (when b (set_option k v) this)
  = fold_left write (if b then [(k, v)] else []) (_options this).
Proof. destruct b; reflexivity. Qed.

Lemma options_of_flag_option (b : bool) (k : string) (this : Rsync) :
  _options (when b (flag_option k) this)
  = fold_left write (if b then [(js k, One Null)] else []) (_options this).
Proof. destruct b; reflexivity. Qed.

Lemma options_of_set_flags (fl : list jsstring) (this : Rsync) :
  _options (set_flags fl this)
  = fold_left write (List.map (fun k => (k, One Null)) fl) (_options this).
Proof.
  unfold set_flags. revert this.
  induction fl as [|k rest IH]; intros this; [reflexivity|].
  cbn [fold_left List.map]. rewrite IH. reflexivity.
Qed.

Lemma options_of_when_set_flags (b : bool) (fl : list jsstring)
      (this : Rsync) :
  _options (when b (set_flags fl) this)
  = fold_left write (List.map (fun k => (k, One Null)) (if b then fl else []))
              (_options this).
Proof. destruct b; [apply options_of_set_flags|reflexivity]. Qed.

Lemma options_of_merge_set (s : option obj) (this : Rsync) :
  _options (merge_set s this)
  = fold_left write (match s with Some o => entries o | None => [] end)
              (_options this).
Proof.
  destruct s as [o|]; [|reflexivity]. unfold merge_set. revert this.
  induction (entries o) as [|e rest IH]; intros this; [reflexivity|].
  cbn [fold_left]. rewrite IH. reflexivity.
Qed.

(** The option object of an instance is the outcome of the writes the
    configuration asks for, in their order. *)
Lemma processOptions_writes (options : RsyncOptions) (this : Rsync) :
  _options (_processOptions options this)
  = fold_left write (option_writes options) (_options this).
Proof.
  unfold _processOptions, option_writes, switch_keys.
  cbn [flat_map fst snd]. rewrite !fold_left_app.
  rewrite options_of_merge_set.
  repeat first
    [ rewrite options_of_set_option
    | rewrite options_of_flag_option
    | rewrite options_of_when_set_flags
    | rewrite options_of_path_step by reflexivity ].
  reflexivity.
Qed.

(* ------------------------------------------------------------------ *)
(** ** Writes to a plain object *)

Lemma jsstring_eqb_eq (a b : jsstring) : jsstring_eqb a b = true <-> a = b.
Proof.
  unfold jsstring_eqb. destruct (list_eq_dec N.eq_dec a b) as [H|H];
    split; intros H'; congruence.
Qed.

Lemma jsstring_eqb_refl (a : jsstring) : jsstring_eqb a a = true.
Proof. apply jsstring_eqb_eq. reflexivity. Qed.

Lemma jsstring_eqb_neq {a b : jsstring} : a <> b -> jsstring_eqb a b = false.
Proof.
  intros H. destruct (jsstring_eqb a b) eqn:E; [|reflexivity].
  apply jsstring_eqb_eq in E. contradiction.
Qed.

Lemma assign_keys (k k' : jsstring) (v : value) (l : list (jsstring * value)) :
  In k' (List.map fst (assign k v l)) <-> k' = k \/ In k' (List.map fst l).
Proof.
  induction l as [|[k0 v0] rest IH]; cbn [assign List.map fst In].
  - intuition.
  - destruct (jsstring_eqb k k0) eqn:E; cbn [List.map fst In].
    + apply jsstring_eqb_eq in E. subst k0. intuition.
    + rewrite IH. intuition.
Qed.

Lemma assign_NoDup (k : jsstring) (v : value) (l : list (jsstring * value)) :
  NoDup (List.map fst l) -> NoDup (List.map fst (assign k v l)).
Proof.
  induction l as [|[k0 v0] rest IH]; cbn [assign List.map fst]; intros H.
  - constructor; [intros []|constructor].
  - inversion H as [|x xs Hnotin Hrest]; subst.
    destruct (jsstring_eqb k k0) eqn:E; cbn [List.map fst].
    + apply jsstring_eqb_eq in E. subst k0. constructor; assumption.
    + constructor; [|apply IH, Hrest].
      intros Hin. apply assign_keys in Hin. destruct Hin as [->|Hin].
      * rewrite jsstring_eqb_refl in E. discriminate.
      * contradiction.
Qed.

Lemma assign_fresh (k : jsstring) (v : value) (l : list (jsstring * value)) :
  ~ In k (List.map fst l) -> assign k v l = l ++ [(k, v)].
Proof.
  induction l as [|[k0 v0] rest IH]; cbn [assign List.map fst In app];
    intros H; [reflexivity|].
  rewrite jsstring_eqb_neq by (intros ->; apply H; left; reflexivity).
  rewrite IH by (intros Hin; apply H; right; exact Hin). reflexivity.
Qed.

Lemma find_assign_same (k : jsstring) (v : value)
      (l : list (jsstring * value)) :
  find (fun e => jsstring_eqb k (fst e)) (assign k v l) = Some (k, v).
Proof.
  induction l as [|[k0 v0] rest IH]; cbn [assign find fst].
  - rewrite jsstring_eqb_refl. reflexivity.
  - destruct (jsstring_eqb k k0) eqn:E; cbn [find fst].
    + rewrite jsstring_eqb_refl. reflexivity.
    + rewrite E. exact IH.
Qed.

Lemma find_assign_other {k k' : jsstring} (v : value)
      (l : list (jsstring * value)) :
  k <> k' ->
  find (fun e => jsstring_eqb k (fst e)) (assign k' v l)
  = find (fun e => jsstring_eqb k (fst e)) l.
Proof.
  intros Hne. induction l as [|[k0 v0] rest IH]; cbn [assign find fst].
  - rewrite (jsstring_eqb_neq Hne). reflexivity.
  - destruct (jsstring_eqb k' k0) eqn:E; cbn [find fst].
    + apply jsstring_eqb_eq in E. subst k0.
      rewrite (jsstring_eqb_neq Hne). reflexivity.
    + rewrite IH. reflexivity.
Qed.

Lemma obj_set_plain (ob : obj) {k : jsstring} (v : value) :
  k <> js "__proto__" -> own (obj_set ob k v) = assign k v (own ob).
Proof.
  intros Hk. unfold obj_set. rewrite (jsstring_eqb_neq Hk). reflexivity.
Qed.

Lemma obj_set_own_cases (ob : obj) (k : jsstring) (v : value) :
  own (obj_set ob k v) = own ob \/ own (obj_set ob k v) = assign k v (own ob).
Proof.
  unfold obj_set.
  destruct (jsstring_eqb k (js "__proto__") && proto_setter ob)%bool.
  - left. destruct v as [[| |s]|xs]; reflexivity.
  - right. reflexivity.
Qed.

Lemma own_property_set_same (ob : obj) (k : jsstring) (v : value) :
  k <> js "__proto__" -> own_property (obj_set ob k v) k = Some v.
Proof.
  intros Hk. unfold own_property.
  rewrite (obj_set_plain ob v Hk), find_assign_same. reflexivity.
Qed.

Lemma own_property_set_other (ob : obj) (k k' : jsstring) (v : value) :
  k <> k' -> own_property (obj_set ob k' v) k = own_property ob k.
Proof.
  intros Hne. unfold own_property.
  destruct (obj_set_own_cases ob k' v) as [H|H]; rewrite H;
    [reflexivity|].
  rewrite (find_assign_other v (own ob) Hne). reflexivity.
Qed.

Lemma write_NoDup (ob : obj) (kv : jsstring * value) :
  NoDup (List.map fst (own ob)) -> NoDup (List.map fst (own (write ob kv))).
Proof.
  intros H. unfold write.
  destruct (obj_set_own_cases ob (fst kv) (snd kv)) as [E|E]; rewrite E;
    [exact H|apply assign_NoDup, H].
Qed.

Lemma writes_NoDup (ws : list (jsstring * value)) (ob : obj) :
  NoDup (List.map fst (own ob)) ->
  NoDup (List.map fst (own (fold_left write ws ob))).
Proof.
  revert ob. induction ws as [|w rest IH]; intros ob H; [exact H|].
  cbn [fold_left]. apply IH, write_NoDup, H.
Qed.

(** After a run of writes, a key holds the value of the last write under
    it, or what it held before when there was none. *)
Lemma writes_last (ws : list (jsstring * value)) (ob : obj) (k : jsstring) :
  k <> js "__proto__" ->
  own_property (fold_left write ws ob) k
  = match last_write k ws with
    | Some v => Some v
    | None => own_property ob k
    end.
Proof.
  intros Hk. induction ws as [|w ws' IH] using rev_ind.
  - reflexivity.
  - rewrite fold_left_app. cbn [fold_left]. unfold last_write.
    rewrite rev_app_distr. cbn [rev app find]. unfold write at 1.
    destruct (jsstring_eqb k (fst w)) eqn:E.
    + apply jsstring_eqb_eq in E. rewrite <- E.
      cbn [option_map]. apply own_property_set_same, Hk.
    + rewrite own_property_set_other
        by (intros ->; rewrite jsstring_eqb_refl in E; discriminate).
      exact IH.
Qed.

Lemma split_filter_perm (A : Type) (f : A -> bool) (l : list A) :
  Permutation (filter f l ++ filter (fun x => negb (f x)) l) l.
Proof.
  induction l as [|x rest IH]; [constructor|].
  cbn [filter]. destruct (f x); cbn [negb app].
  - apply perm_skip, IH.
  - apply Permutation_sym, Permutation_cons_app, Permutation_sym, IH.
Qed.

(** [Object.entries] lists every own property once. *)
Lemma entries_perm (o : obj) : Permutation (entries o) (own o).
Proof.
  unfold entries.
  apply perm_trans
    with (filter (fun e => is_array_index (fst e)) (own o)
          ++ filter (fun e => negb (is_array_index (fst e))) (own o)).
  - apply Permutation_app_tail. apply index_entries_order.
  - apply split_filter_perm.
Qed.

(* ------------------------------------------------------------------ *)
(** ** The instance the constructor builds *)

Lemma build_without_options (options : RsyncOptions) :
  without_options (build options)
  = path_steps options (without_options (initial options)).
Proof. apply processOptions_without_options. Qed.

Lemma build_writes (options : RsyncOptions) :
  _options (build options) = fold_left write (option_writes options) empty.
Proof. apply (processOptions_writes options (initial options)). Qed.

(** X6.  For every configuration object the instance keeps an executable
    and a shell that are not empty: the configured ones, or [rsync] and
    [/bin/sh] when they are absent or empty; no other field of the
    configuration changes them.  The command string opens with the
    executable and a space, and off Windows [execute] spawns the shell
    with [-c] and the command string as its only two arguments. *)
Theorem constructor_executables :
  forall (options : RsyncOptions) (p : platform),
    Method.executable (build options)
    = or_default (executable options) (js "rsync")
    /\ Method.executable (build options) <> []
    /\ spawn_file (spawn_of Posix (build options))
       = or_default (executableShell options) (js "/bin/sh")
    /\ spawn_file (spawn_of Posix (build options)) <> []
    /\ spawn_args (spawn_of Posix (build options))
       = [js "-c"; Method.toString Posix (build options)]
    /\ Method.toString p (build options)
       = or_default (executable options) (js "rsync") ++ js " "
         ++ join (js " ") (args p (build options)).
Proof.
  intros options p.
  assert (He : _executable (build options)
               = or_default (executable options) (js "rsync")).
  { change (_executable (build options))
      with (_executable (without_options (build options))).
    rewrite build_without_options. unfold path_steps.
    destruct (truthy_sa (source options)),
      (truthy_string (destination options)),
      (truthy_sa (exclude options)), (truthy_sa (include options));
      reflexivity. }
  assert (Hs : _executableShell (build options)
               = or_default (executableShell options) (js "/bin/sh")).
  { change (_executableShell (build options))
      with (_executableShell (without_options (build options))).
    rewrite build_without_options. unfold path_steps.
    destruct (truthy_sa (source options)),
      (truthy_string (destination options)),
      (truthy_sa (exclude options)), (truthy_sa (include options));
      reflexivity. }
  unfold Method.executable, Method.toString, spawn_of, command.
  cbn [is_win32 spawn_file spawn_args]. rewrite He, Hs.
  repeat split.
  - destruct (executable options) as [[|c s]|]; discriminate.
  - destruct (executableShell options) as [[|c s]|]; discriminate.
Qed.

Lemma build_fields (options : RsyncOptions) :
  _sources (build options) = listed (source options)
  /\ _destination (build options) = or_default (destination options) []
  /\ _excludes (build options) = listed (exclude options)
  /\ _includes (build options) = listed (include options).
Proof.
  change (_sources (build options))
    with (_sources (without_options (build options))).
  change (_destination (build options))
    with (_destination (without_options (build options))).
  change (_excludes (build options))
    with (_excludes (without_options (build options))).
  change (_includes (build options))
    with (_includes (without_options (build options))).
  rewrite build_without_options. unfold path_steps, listed.
  destruct (source options) as [[[|c s]|xs]|],
    (destination options) as [[|c' s']|],
    (exclude options) as [[[|c1 s1]|xs1]|],
    (include options) as [[[|c2 s2]|xs2]|]; repeat split.
Qed.

(** X7.  For every configuration object: the sources of the instance are
    the given array, or the given string alone in a list, and none when
    the field is absent or the empty string; the destination is the given
    string, or empty; the exclude and include patterns are normalised like
    the sources.  No other field of the configuration changes them. *)
Theorem constructor_paths :
  forall options : RsyncOptions,
    Method.source (build options) = listed (source options)
    /\ Method.destination (build options)
       = or_default (destination options) []
    /\ _excludes (build options) = listed (exclude options)
    /\ _includes (build options) = listed (include options).
Proof. intros options. apply build_fields. Qed.

Lemma filter_keys_NoDup (f : jsstring * value -> bool)
      (l : list (jsstring * value)) :
  NoDup (List.map fst l) -> NoDup (List.map fst (filter f l)).
Proof.
  induction l as [|e rest IH]; cbn [filter List.map]; intros H; [exact H|].
  inversion H as [|x xs Hnotin Hrest]; subst.
  destruct (f e); cbn [List.map]; [|apply IH, Hrest].
  constructor; [|apply IH, Hrest].
  intros Hin. apply Hnotin. apply in_map_iff in Hin.
  destruct Hin as [e' [Hfst Hin]]. apply filter_In in Hin.
  apply in_map_iff. exists e'. split; [exact Hfst|apply Hin].
Qed.

(** X8.  In every instance the constructor builds, no option key occurs
    twice: not among the own properties of [_options], not in
    [Object.entries], and so no flag occurs twice in the combined token. *)
Theorem constructor_keys_unique :
  forall options : RsyncOptions,
    NoDup (List.map fst (own (_options (build options))))
    /\ NoDup (List.map fst (entries (_options (build options))))
    /\ NoDup (short_keys (entries (_options (build options)))).
Proof.
  intros options.
  assert (Hown : NoDup (List.map fst (own (_options (build options))))).
  { rewrite build_writes. apply writes_NoDup. constructor. }
  assert (Hent : NoDup (List.map fst (entries (_options (build options))))).
  { apply (Permutation_NoDup (l := List.map fst (own (_options (build options)))));
      [|exact Hown].
    apply Permutation_map, Permutation_sym, entries_perm. }
  split; [exact Hown|split; [exact Hent|]].
  unfold short_keys. apply filter_keys_NoDup, Hent.
Qed.

Lemma last_write_app (k : jsstring) (a b : list (jsstring * value)) :
  last_write k (a ++ b)
  = match last_write k b with
    | Some v => Some v
    | None => last_write k a
    end.
Proof.
  unfold last_write. rewrite rev_app_distr.
  induction (rev b) as [|e rest IH]; [reflexivity|].
  cbn [app find]. destruct (jsstring_eqb k (fst e)); [reflexivity|exact IH].
Qed.

Lemma find_unique (k : jsstring) (v : value) (l : list (jsstring * value)) :
  NoDup (List.map fst l) -> In (k, v) l ->
  find (fun e => jsstring_eqb k (fst e)) l = Some (k, v).
Proof.
  induction l as [|[k0 v0] rest IH]; cbn [List.map fst In find];
    intros Hnd Hin; [contradiction|].
  inversion Hnd as [|x xs Hnotin Hrest]; subst.
  destruct Hin as [Heq|Hin].
  - injection Heq as -> ->. rewrite jsstring_eqb_refl. reflexivity.
  - destruct (jsstring_eqb k k0) eqn:E; [|apply IH; assumption].
    apply jsstring_eqb_eq in E. subst k0. exfalso. apply Hnotin.
    apply in_map_iff. exists (k, v). split; [reflexivity|exact Hin].
Qed.

Lemma last_write_unique (k : jsstring) (v : value)
      (l : list (jsstring * value)) :
  NoDup (List.map fst l) -> In (k, v) l -> last_write k l = Some v.
Proof.
  intros Hnd Hin. unfold last_write.
  rewrite (find_unique k v (rev l)).
  - reflexivity.
  - rewrite map_rev. apply NoDup_rev, Hnd.
  - apply in_rev in Hin. exact Hin.
Qed.

(** X9.  In the instance the constructor builds, every option key other
    than [__proto__] holds the value of the last write the configuration
    asks for under it, the writes being in order: the flags, [rsh], the
    boolean fields, [chmod], and the entries of [set].  So an entry of
    [set] wins over every shorthand field of the same key. *)
Theorem constructor_last_write_wins :
  forall (options : RsyncOptions) (k : jsstring),
    k <> js "__proto__" ->
    own_property (_options (build options)) k
    = last_write k (option_writes options)
    /\ (forall (s : obj) (v : value),
          set options = Some s ->
          NoDup (List.map fst (own s)) ->
          In (k, v) (own s) ->
          own_property (_options (build options)) k = Some v).
Proof.
  intros options k Hk.
  assert (Hlast : own_property (_options (build options)) k
                  = last_write k (option_writes options)).
  { rewrite build_writes, (writes_last _ _ _ Hk).
    destruct (last_write k (option_writes options)); reflexivity. }
  split; [exact Hlast|].
  intros s v Hset Hnd Hin. rewrite Hlast. unfold option_writes.
  rewrite Hset. rewrite !last_write_app.
  rewrite (last_write_unique k v (entries s)).
  - reflexivity.
  - apply (Permutation_NoDup (l := List.map fst (own s))); [|exact Hnd].
    apply Permutation_map, Permutation_sym, entries_perm.
  - apply (Permutation_in (l := own s)); [|exact Hin].
    apply Permutation_sym, entries_perm.
Qed.

Lemma constructor_last_write_wins_witness :
  own_property (_options (build sample_set_over_shell)) (js "rsh")
  = Some (One (Str (js "ssh -p 2222"))).
Proof.
  destruct (constructor_last_write_wins sample_set_over_shell (js "rsh"))
    as [_ Hset].
  - discriminate.
  - apply (Hset (obj_set empty (js "rsh") (One (Str (js "ssh -p 2222"))))).
    + reflexivity.
    + repeat constructor. intros [].
    + left. reflexivity.
Defined.

(** Writes under new keys land behind the properties that are there, in
    their order. *)
Lemma writes_fresh (ws : list (jsstring * value)) (ob : obj) :
  NoDup (List.map fst ws) ->
  (forall k, In k (List.map fst ws) ->
             ~ In k (List.map fst (own ob)) /\ k <> js "__proto__") ->
  own (fold_left write ws ob) = own ob ++ ws.
Proof.
  revert ob. induction ws as [|[k v] rest IH]; intros ob Hnd Hfresh.
  - cbn. rewrite app_nil_r. reflexivity.
  - cbn [fold_left]. cbn [List.map fst] in Hnd, Hfresh.
    inversion Hnd as [|x xs Hnotin Hrest]; subst.
    destruct (Hfresh k (or_introl eq_refl)) as [Hk Hproto].
    assert (Hown : own (write ob (k, v)) = own ob ++ [(k, v)]).
    { unfold write. cbn [fst snd]. rewrite (obj_set_plain ob v Hproto).
      apply assign_fresh, Hk. }
    rewrite IH.
    + rewrite Hown, <- app_assoc. reflexivity.
    + exact Hrest.
    + intros k' Hin. destruct (Hfresh k' (or_intror Hin)) as [Hk' Hp'].
      split; [|exact Hp']. rewrite Hown, map_app. cbn [List.map fst].
      intros Hin'. apply in_app_or in Hin'. destruct Hin' as [Hin'|[->|[]]].
      * contradiction.
      * contradiction.
Qed.

Lemma flags_when_truthy (f : option string_or_array) :
  (if truthy_sa f then flags_list f else []) = flags_list f.
Proof. destruct f as [[[|c s]|xs]|]; reflexivity. Qed.

Lemma split_units_keys (s : jsstring) :
  List.map fst (List.map (fun k => (k, One Null)) (split_units s))
  = split_units s.
Proof. rewrite map_map. cbn [fst]. apply map_id. Qed.

Lemma split_units_NoDup (s : jsstring) : NoDup s -> NoDup (split_units s).
Proof.
  unfold split_units. induction s as [|c s' IH]; intros H; [constructor|].
  inversion H as [|x xs Hnotin Hrest]; subst. cbn [List.map].
  constructor; [|apply IH, Hrest].
  intros Hin. apply in_map_iff in Hin. destruct Hin as [c' [Heq Hin]].
  injection Heq as ->. contradiction.
Qed.

Lemma split_units_concat (s : jsstring) : List.concat (split_units s) = s.
Proof.
  induction s as [|c s' IH]; [reflexivity|].
  cbn [split_units List.map List.concat app]. unfold split_units in IH.
  rewrite IH. reflexivity.
Qed.

(** The entries of an option object that holds a run of distinct flags,
    none of them a digit. *)
Lemma flag_entries (s : jsstring) (ob : obj) :
  own ob = List.map (fun k => (k, One Null)) (split_units s) ->
  existsb is_digit s = false ->
  entries ob = own ob
  /\ combined_token (entries ob) = flags_token s
  /\ separate_tokens (entries ob) = [].
Proof.
  intros Hown Hdig.
  assert (Hent : entries ob = own ob).
  { apply entries_without_index. unfold no_index_key. rewrite Hown.
    clear Hown. induction s as [|c s' IH]; [reflexivity|].
    cbn [existsb] in Hdig. apply orb_false_elim in Hdig.
    destruct Hdig as [Hc Hs'].
    cbn [split_units List.map forallb fst]. unfold split_units in IH.
    rewrite (IH Hs'), andb_true_r.
    unfold is_array_index, array_index. cbn [forallb].
    rewrite Hc. reflexivity. }
  rewrite Hent, Hown. clear Hent Hown Hdig.
  assert (Hfilter : forall l : list jsstring,
             Forall (fun k => List.length k = 1) l ->
             filter is_short_flag (List.map (fun k => (k, One Null)) l)
             = List.map (fun k => (k, One Null)) l
             /\ filter (fun e => negb (is_short_flag e))
                       (List.map (fun k => (k, One Null)) l) = []).
  { induction l as [|k rest IH]; intros Hl; [split; reflexivity|].
    inversion Hl as [|x xs Hk Hrest]; subst.
    destruct (IH Hrest) as [IH1 IH2].
    assert (Hflag : is_short_flag (k, One Null) = true).
    { unfold is_short_flag. cbn [fst snd noval]. rewrite Hk. reflexivity. }
    cbn [List.map filter]. rewrite Hflag. cbn [negb]. rewrite IH1, IH2.
    split; reflexivity. }
  destruct (Hfilter (split_units s)) as [Hshort Hlong].
  { unfold split_units. apply Forall_forall. intros k Hin.
    apply in_map_iff in Hin. destruct Hin as [c [<- _]]. reflexivity. }
  split; [reflexivity|split].
  - unfold combined_token, short_keys. rewrite Hshort, split_units_keys.
    destruct s as [|c s']; [reflexivity|].
    cbn [split_units List.map flags_token].
    change (List.map (fun c0 => [c0]) s') with (split_units s').
    change ([c] :: split_units s') with (split_units (c :: s')).
    rewrite split_units_concat. reflexivity.
  - unfold separate_tokens. rewrite Hlong. reflexivity.
Qed.

(** X10.  For a configuration object with no [shell], [chmod], [set] and
    boolean field, whose flags are distinct code units, none of them a
    digit, the token list is the combined token of the flags in the given
    order (no token without flags), the exclude tokens, the include
    tokens, the escaped sources and the escaped destination, and the
    command string is the executable, a space, and these tokens joined by
    spaces. *)
Theorem constructor_flags_and_paths :
  forall (options : RsyncOptions) (p : platform) (s : jsstring),
    (forall n : Switch.name, enabled options n = false) ->
    truthy_string (shell options) = false ->
    truthy_sa (chmod options) = false ->
    set options = None ->
    flags_list (flags options) = split_units s ->
    NoDup s ->
    existsb is_digit s = false ->
    args p (build options)
    = flags_token s
      ++ List.map (exclude_token p) (listed (exclude options))
      ++ List.map (include_token p) (listed (include options))
      ++ List.map (escapeFileArg p) (listed (source options))
      ++ destination_tokens p (or_default (destination options) [])
    /\ command p (build options)
       = or_default (executable options) (js "rsync") ++ js " "
         ++ join (js " ")
              (flags_token s
               ++ List.map (exclude_token p) (listed (exclude options))
               ++ List.map (include_token p) (listed (include options))
               ++ List.map (escapeFileArg p) (listed (source options))
               ++ destination_tokens p (or_default (destination options) [])).
Proof.
  intros options p s Hoff Hshell Hchmod Hset Hflags Hnd Hdig.
  assert (Hw : option_writes options
               = List.map (fun k => (k, One Null)) (split_units s)).
  { unfold option_writes, switch_keys.
    rewrite flags_when_truthy, Hflags, Hshell, Hchmod, Hset.
    cbn [flat_map fst snd]. rewrite !Hoff. cbn [app].
    rewrite !app_nil_r. reflexivity. }
  assert (Hown : own (_options (build options))
                 = List.map (fun k => (k, One Null)) (split_units s)).
  { rewrite build_writes, Hw, writes_fresh.
    - reflexivity.
    - rewrite split_units_keys. apply split_units_NoDup, Hnd.
    - intros k Hin. rewrite split_units_keys in Hin.
      apply in_map_iff in Hin. destruct Hin as [c [<- _]].
      split; [intros []|discriminate]. }
  destruct (flag_entries s (_options (build options)) Hown Hdig)
    as [_ [Hcomb Hsep]].
  destruct (build_fields options) as [Hsrc [Hdst [Hex Hin]]].
  assert (Hargs : args p (build options)
                  = flags_token s
                    ++ List.map (exclude_token p) (listed (exclude options))
                    ++ List.map (include_token p) (listed (include options))
                    ++ List.map (escapeFileArg p) (listed (source options))
                    ++ destination_tokens p
                         (or_default (destination options) [])).
  { rewrite args_rendered. unfold rendered.
    rewrite Hcomb, Hsep, Hsrc, Hdst, Hex, Hin. reflexivity. }
  split; [exact Hargs|].
  unfold command. rewrite Hargs.
  change (_executable (build options))
    with (_executable (without_options (build options))).
  rewrite build_without_options. unfold path_steps.
  destruct (truthy_sa (source options)),
    (truthy_string (destination options)),
    (truthy_sa (exclude options)), (truthy_sa (include options));
    reflexivity.
Qed.

Lemma constructor_flags_and_paths_witness :
  args Posix (build sample_filters)
  = [js "-avz"; js "--exclude=.git"; js "--exclude=build/*";
     js "--include=/tests/*.test.js"; js "--include=*.md";
     js "SOURCE"; js "DESTINATION"].
Proof.
  apply (constructor_flags_and_paths sample_filters Posix (js "avz"));
    try reflexivity.
  repeat constructor; cbn; intuition discriminate.
Defined.



(* ------------------------------------------------------------------ *)
(** ** The boolean fields in the two variants *)

Ltac split_forallb H :=
  repeat (apply andb_prop in H;
          let Hx := fresh "Hx" in
          destruct H as [Hx H]; apply Bool.eqb_prop in Hx).

(** X12.  The JavaScript constructor cannot tell a one-letter field from
    the field it stands for: two settings of the boolean fields with the
    same disjunctions give the same outcome.  The TypeScript constructor
    reads the fields of the interface only. *)
Theorem boolean_fields_read :
  forall (options : RsyncOptions) (f g : Switch.name -> bool),
    (same_for_js f g = true ->
     Js.constructor (ArgObject (with_enabled f options))
     = Js.constructor (ArgObject (with_enabled g options)))
    /\ (same_for_ts f g = true ->
        build (with_enabled f options) = build (with_enabled g options)).
Proof.
  intros options f g. split; intros H.
  - unfold same_for_js, unaliased, aliases in H.
    apply andb_prop in H. destruct H as [H1 H2].
    cbn [forallb fst snd] in H1, H2.
    split_forallb H1. split_forallb H2.
    change (Js.constructor (ArgObject (with_enabled f options)))
      with (Js._processOptions (with_enabled f options)
              (initial (with_enabled f options))).
    change (Js.constructor (ArgObject (with_enabled g options)))
      with (Js._processOptions (with_enabled g options)
              (initial (with_enabled g options))).
    unfold Js._processOptions, Js._processOptions_rest.
    cbn [with_enabled source destination flags shell chmod exclude include
         set enabled executable executableShell initial].
    repeat match goal with
           | Hx : _ = _ |- _ => rewrite Hx; clear Hx
           end.
    reflexivity.
  - unfold same_for_ts, switch_keys in H. cbn [forallb fst snd] in H.
    split_forallb H.
    unfold build, _processOptions.
    cbn [with_enabled source destination flags shell chmod exclude include
         set enabled executable executableShell initial].
    repeat match goal with
           | Hx : _ = _ |- _ => rewrite Hx; clear Hx
           end.
    reflexivity.
Qed.

Lemma boolean_fields_read_witness :
  Js.constructor (ArgObject sample_alias_a)
  = Js.constructor (ArgObject sample_archive)
  /\ build sample_alias_a = build no_options.
Proof.
  split.
  - apply (boolean_fields_read no_options
             (enabled sample_alias_a) (enabled sample_archive)).
    reflexivity.
  - apply (boolean_fields_read no_options
             (enabled sample_alias_a) (enabled no_options)).
    reflexivity.
Defined.

(* ------------------------------------------------------------------ *)
(** ** Tokens tell values apart *)

Lemma buildOption_injective (name a b : jsstring)
      (escapeArg : jsstring -> jsstring) :
  (forall x y, escapeArg x = escapeArg y -> x = y) ->
  buildOption name (Str a) escapeArg = buildOption name (Str b) escapeArg ->
  a = b.
Proof.
  intros Hinj H. unfold buildOption in H.
  destruct a as [|ca a'], b as [|cb b']; cbn [truthy String_] in H.
  - reflexivity.
  - exfalso. apply (f_equal (@List.length _)) in H.
    rewrite !length_app in H.
    destruct (Nat.eqb (List.length name) 1); cbn [List.length js] in H;
      cbn in H; lia.
  - exfalso. apply (f_equal (@List.length _)) in H.
    rewrite !length_app in H.
    destruct (Nat.eqb (List.length name) 1); cbn [List.length js] in H;
      cbn in H; lia.
  - apply app_inv_head in H. apply app_inv_head in H.
    apply Hinj, H.
Qed.

(** X13.  Under one key, two different string values never render as the
    same option token; and off Windows two different patterns never render
    as the same exclude token, nor as the same include token. *)
Theorem tokens_tell_values_apart :
  forall name a b : jsstring,
    (buildOption name (Str a) escapeShellArg
     = buildOption name (Str b) escapeShellArg -> a = b)
    /\ (exclude_token Posix a = exclude_token Posix b -> a = b)
    /\ (include_token Posix a = include_token Posix b -> a = b).
Proof.
  intros name a b. split; [|split].
  - apply buildOption_injective. exact escapeShellArg_injective.
  - apply buildOption_injective. exact escapeFileArg_posix_injective.
  - apply buildOption_injective. exact escapeFileArg_posix_injective.
Qed.

Lemma tokens_tell_values_apart_witness :
  js "ssh -p 22" = js "ssh" ++ js " -p 22"
  /\ js "*.log" = js "*" ++ js ".log"
  /\ js "*.md" = js "*" ++ js ".md".
Proof.
  destruct (tokens_tell_values_apart
              (js "rsh") (js "ssh -p 22") (js "ssh" ++ js " -p 22"))
    as [Hopt _].
  destruct (tokens_tell_values_apart
              (js "rsh") (js "*.log") (js "*" ++ js ".log"))
    as [_ [Hex _]].
  destruct (tokens_tell_values_apart
              (js "rsh") (js "*.md") (js "*" ++ js ".md"))
    as [_ [_ Hin]].
  split; [apply Hopt; reflexivity|split].
  - apply Hex. reflexivity.
  - apply Hin. reflexivity.
Defined.

(* ------------------------------------------------------------------ *)
(** ** More on the completion of [execute] *)

(** X14.  The outcome of [execute] tells the first notification: the
    promise is pending exactly when no notification has arrived; if it is
    fulfilled, the first notification was a close with code 0 and the
    result holds code 0 and the command string; if it is rejected with an
    exit error, the first notification was a close with another code or
    with none, and the error holds a code that is not 0 and the command
    string; if it is rejected with a spawn error, this error was the first
    notification. *)
Theorem execute_outcome_inversion :
  forall (E : Type) (p : platform) (this : Rsync)
         (ns : list (Execute.notification E)),
    match Execute.execute p this ns with
    | Execute.Pending => ns = []
    | Execute.Fulfilled r =>
        Execute.code r = 0%Z /\ Execute.cmd r = command p this
        /\ exists rest, ns = Execute.Close (Some 0%Z) :: rest
    | Execute.Rejected (Execute.ExitError e) =>
        Execute.error_code e <> 0%Z
        /\ Execute.error_cmd e = command p this
        /\ exists c rest, ns = Execute.Close c :: rest /\ c <> Some 0%Z
    | Execute.Rejected (Execute.SpawnError x) =>
        exists rest, ns = Execute.Failure x :: rest
    end.
Proof.
  intros E p this ns. destruct ns as [|n rest]; [reflexivity|].
  rewrite execute_first. destruct n as [c|x].
  - unfold Execute.handle, Execute.on_close.
    destruct c as [[|z|z]|]; cbn [Execute.not_zero Execute.reject
      Execute.resolve Execute.nullish Execute.code Execute.cmd
      Execute.error_code Execute.error_cmd].
    + repeat split. exists rest. reflexivity.
    + split; [discriminate|split; [reflexivity|]].
      eexists _, rest. split; [reflexivity|discriminate].
    + split; [discriminate|split; [reflexivity|]].
      eexists _, rest. split; [reflexivity|discriminate].
    + split; [discriminate|split; [reflexivity|]].
      eexists _, rest. split; [reflexivity|discriminate].
  - exists rest. reflexivity.
Qed.

(** X15.  When the child process closes without an exit code, as after a
    signal, the promise is rejected with code -1 and a message that names
    the code [null]; when the spawn fails first, the promise is rejected
    with the error of the spawn as it is, whatever comes after. *)
Theorem execute_without_exit_code :
  forall (E : Type) (p : platform) (this : Rsync) (x : E)
         (rest : list (Execute.notification E)),
    Execute.execute p this (Execute.Close None :: rest)
    = Execute.Rejected
        (Execute.ExitError
           {| Execute.message := js "rsync exited with code null";
              Execute.error_code := (-1)%Z;
              Execute.error_cmd := command p this |})
    /\ Execute.execute p this (Execute.Failure x :: rest)
       = Execute.Rejected (Execute.SpawnError x).
Proof.
  intros E p this x rest. split; rewrite execute_first; reflexivity.
Qed.

(* ------------------------------------------------------------------ *)
(** ** Drive letters on Windows *)

Lemma letter_not_special (x : char16) :
  class_AZ_i x = true -> class_file x = false /\ is_backslash x = false.
Proof.
  intros Hx.
  assert (Hf : class_file x = false).
  { destruct (class_file x) eqn:E; [exfalso|reflexivity].
    unfold class_AZ_i, in_range in Hx.
    unfold class_file, class_s, one_of, in_range in E.
    cbn [existsb] in E.
    unfold DQUOTE, SQUOTE, BACKTICK, BACKSLASH, LPAREN, RPAREN, DOLLAR in E.
    repeat rewrite ?orb_true_iff, ?andb_true_iff, ?N.eqb_eq, ?N.leb_le in Hx.
    repeat rewrite ?orb_true_iff, ?andb_true_iff, ?N.eqb_eq, ?N.leb_le in E.
    lia. }
  split; [exact Hf|]. apply not_class_file_not_backslash, Hf.
Qed.

(** X16.  On Windows a path that opens with a drive letter, a colon and a
    backslash renders as a slash followed by the rest of the path with its
    backslashes turned into slashes: the drive letter is dropped, so the
    same path on two drives renders as the same text. *)
Theorem escapeFileArg_drops_drive :
  forall (x y : char16) (rest : jsstring),
    class_AZ_i x = true ->
    class_AZ_i y = true ->
    escapeFileArg Win32 (x :: COLON :: BACKSLASH :: rest)
    = SLASH :: flat_map slash_unit rest
    /\ escapeFileArg Win32 (x :: COLON :: BACKSLASH :: rest)
       = escapeFileArg Win32 (y :: COLON :: BACKSLASH :: rest).
Proof.
  assert (H : forall x rest, class_AZ_i x = true ->
              escapeFileArg Win32 (x :: COLON :: BACKSLASH :: rest)
              = SLASH :: flat_map slash_unit rest).
  { intros x rest Hx. rewrite escapeFileArg_eq.
    destruct (letter_not_special x Hx) as [Hf Hb].
    cbn [is_win32 existsb andb]. rewrite Hb.
    change (is_backslash COLON) with false.
    change (is_backslash BACKSLASH) with true. cbn [orb].
    cbn [flat_map]. unfold slash_unit at 1 2 3, escape_unit.
    rewrite Hb, Hf.
    change (is_backslash COLON) with false.
    change (class_file COLON) with false.
    change (is_backslash BACKSLASH) with true.
    cbn [app]. unfold strip_drive. rewrite Hx. reflexivity. }
  intros x y rest Hx Hy. split; [apply H, Hx|].
  rewrite (H x rest Hx), (H y rest Hy). reflexivity.
Qed.

Lemma escapeFileArg_drops_drive_witness :
  escapeFileArg Win32 (js "C:\home\readme.txt")
  = escapeFileArg Win32 (js "D:\home\readme.txt").
Proof.
  apply (escapeFileArg_drops_drive 67%N 68%N (js "home\readme.txt"));
    reflexivity.
Defined.
